(** * Microsite factory pipeline: validation, generation, SEO, deployment

    A shallow embedding of the four-stage in-memory pipeline
    (InboundOrchestrator, CreativeAIEngine, SeoSemanticAgent,
    GeoDeploymentHub) and of the MainOrchestrator that sequences them,
    followed by the properties the specification states about them.

    Strings are sequences of code units.  The embedding covers the code
    units U+0000..U+00FF, one [ascii] each; on that range [trim],
    [toLowerCase], [split], [substring] and [length] below are the
    ECMAScript ones. *)

From Stdlib Require Import NArith Ascii.
From stdpp Require Import base option list sorting strings gmap.

Local Open Scope N_scope.

(** ** ECMAScript string primitives used by the sources *)

Module JS.

Definition code (c : ascii) : N := N_of_ascii c.

Definition between (lo hi n : N) : bool := (lo <=? n) && (n <=? hi).

(** WhiteSpace and LineTerminator code units below U+0100:
    TAB, LF, VT, FF, CR, SP and NBSP. *)
Definition isWhiteSpace (c : ascii) : bool :=
  between 9 13 (code c) || (code c =? 32) || (code c =? 160).

Fixpoint trimStart (s : string) : string :=
  match s with
  | EmptyString => EmptyString
  | String c s' => if isWhiteSpace c then trimStart s' else s
  end.

Fixpoint trimEnd (s : string) : string :=
  match s with
  | EmptyString => EmptyString
  | String c s' =>
      match trimEnd s' with
      | EmptyString => if isWhiteSpace c then EmptyString else String c EmptyString
      | t => String c t
      end
  end.

(** [s.trim()] *)
Definition trim (s : string) : string := trimEnd (trimStart s).

(** Upper-case letters that have a lower-case partner 32 code units up:
    A-Z, and the Latin-1 letters U+00C0..U+00DE without U+00D7. *)
Definition isUpper (c : ascii) : bool :=
  between 65 90 (code c) || between 192 214 (code c) || between 216 222 (code c).

Definition lowerChar (c : ascii) : ascii :=
  if isUpper c then ascii_of_N (code c + 32) else c.

(** [s.toLowerCase()] *)
Fixpoint toLowerCase (s : string) : string :=
  match s with
  | EmptyString => EmptyString
  | String c s' => String (lowerChar c) (toLowerCase s')
  end.

(** [s.split(sep)] for a one-character separator; never empty. *)
Fixpoint split (sep : ascii) (s : string) : list string :=
  match s with
  | EmptyString => [EmptyString]
  | String c s' =>
      if Ascii.eqb c sep then EmptyString :: split sep s'
      else match split sep s' with
           | h :: t => String c h :: t
           | [] => [String c EmptyString]
           end
  end.

(** [s.substring(a, b)] for non-negative arguments: both are clamped to
    the length and swapped when out of order.  A negative argument counts
    as 0, which is what truncated subtraction on [nat] gives the callers
    that pass [n - 3]. *)
Definition substring (s : string) (a b : nat) : string :=
  String.substring (Nat.min a b) (Nat.max a b - Nat.min a b) s.

(** Truthiness of a string: only the empty string is falsy. *)
Definition truthy (s : string) : bool :=
  match s with EmptyString => false | _ => true end.

(** [xs[0]] on an array. *)
Definition first {A} (xs : list A) : option A := head xs.

(** Number.prototype.toString(36) on a non-negative integer. *)
Definition digit36 (d : N) : ascii :=
  if d <? 10 then ascii_of_N (48 + d) else ascii_of_N (87 + d).

Fixpoint toString36_aux (fuel : nat) (n : N) (acc : string) : string :=
  match fuel with
  | O => acc
  | S fuel' =>
      let acc' := String (digit36 (n mod 36)) acc in
      if n <? 36 then acc' else toString36_aux fuel' (n / 36) acc'
  end.

Definition toString36 (n : N) : string :=
  toString36_aux (S (N.to_nat (N.log2 n))) n EmptyString.

End JS.

(** ** Contracts (lib/contracts/contracts.ts) *)

Definition Locale := string.

Inductive DataResidency := EU | US | GLOBAL.

Record GeoCompliance := {
  requiresGDPR : bool;
  cookieConsentActive : bool;
  dataResidency : DataResidency
}.

Record Assets := { logoUrl : string; keywordsCsvUrl : string }.

Record BriefInput := {
  campaignId : string;
  brandName : string;
  coreMessage : string;
  targetLocales : list Locale;
  assets : Assets
}.

Inductive Status := VALIDATED | FAILED.

Record ValidatedProject := {
  projectId : string;
  timestamp : string;
  status : Status;
  payload : BriefInput;
  compliance : GeoCompliance
}.

Record UIContentVariant := {
  locale : Locale;
  heroTitle : string;
  bodyCopy : string;
  ctaText : string;
  layoutId : string
}.

Record CreativeEngineOutput := {
  ceo_projectId : string;
  variants : list UIContentVariant;
  generationModel : string;
  errors : option (list string)   (* [errors?: string[]] *)
}.

Record StructuredData := {
  sd_context : string;
  sd_type : string;
  sd_name : string;
  sd_description : string;
  sd_inLanguage : string
}.

Record SEOMetadata := {
  title : string;
  description : string;
  ogTags : gmap string string;
  canonicalUrl : string;
  hreflang : gmap Locale string;
  structuredData : StructuredData
}.

(** What [keywordMap[locale] || [...]] evaluates to.  [keywordMap] is an
    object literal, so a locale that names a member of [Object.prototype]
    reads that inherited member instead of a keyword array. *)
Inductive Keywords :=
  | KwArray (ks : list string)
  | KwInherited (member : string).

(** [SEOOptimizedVariant extends UIContentVariant] *)
Record SEOOptimizedVariant := {
  content : UIContentVariant;
  seo : SEOMetadata;
  keywordsApplied : Keywords
}.

Record MiddlewareRules := { geoBlocking : bool; consentRequired : bool }.

Record DeploymentConfig := {
  deploymentId : string;
  edgeRegion : string;
  isLive : bool;
  telemetryEndpoint : string;
  middlewareRules : MiddlewareRules
}.

(** ** The world a pipeline run executes in *)

(** A thrown [Error] object and [String(reason)] on it. *)
Inductive Thrown := JsError (message : string).

Definition String_of (e : Thrown) : string :=
  match e with JsError m => "Error: " +:+ m end.

(** Entries of the call journal: which stage entry points and collaborator
    stubs were entered.  The journal is ghost state of the embedding. *)
Inductive Event :=
  | CallValidate
  | CallGenerate
  | CallOptimize (l : Locale)
  | CallDeploy
  | CallPersist
  | CallVercel (region : string)
  | CallTelemetry (id : string).

Record World := {
  now : N;             (* the clock, in milliseconds *)
  rand : nat -> N;     (* the successive draws of Math.random *)
  drawn : nat;         (* how many draws were consumed *)
  calls : list Event
}.

(** How an awaited computation ends: with a value, with an exception, or
    never (a promise that does not settle). *)
Inductive Outcome (A : Type) :=
  | Returned (a : A)
  | Threw (e : Thrown)
  | Stalled.
Arguments Returned {A} a.
Arguments Threw {A} e.
Arguments Stalled {A}.

Definition M (A : Type) : Type := World -> Outcome A * World.

Definition ret {A} (a : A) : M A := fun w => (Returned a, w).

Definition bind {A B} (m : M A) (k : A -> M B) : M B :=
  fun w =>
    match m w with
    | (Returned a, w') => k a w'
    | (Threw e, w') => (Threw e, w')
    | (Stalled, w') => (Stalled, w')
    end.

Notation "x <- m ;; k" := (bind m (fun x => k))
  (at level 100, m at next level, right associativity).
Notation "m ;;; k" := (bind m (fun _ => k))
  (at level 100, right associativity).

Definition throw {A} (e : Thrown) : M A := fun w => (Threw e, w).
Definition stall {A} : M A := fun w => (Stalled, w).

Definition journal (e : Event) : M unit :=
  fun w => (Returned tt,
            {| now := now w; rand := rand w; drawn := drawn w;
               calls := calls w ++ [e] |}).

(** [await new Promise(resolve => setTimeout(resolve, ms))] *)
Definition sleep (ms : N) : M unit :=
  fun w => (Returned tt,
            {| now := now w + ms; rand := rand w; drawn := drawn w;
               calls := calls w |}).

Definition clock : M N := fun w => (Returned (now w), w).

(** [n] consecutive draws of [Math.random]. *)
Definition draws (n : nat) : M (list N) :=
  fun w => (Returned (map (rand w) (seq (drawn w) n)),
            {| now := now w; rand := rand w; drawn := (drawn w + n)%nat;
               calls := calls w |}).

(** *** Promises *)

Inductive Settled (A : Type) :=
  | Fulfilled (value : A)
  | Rejected (reason : Thrown).
Arguments Fulfilled {A} value.
Arguments Rejected {A} reason.

(** A started asynchronous task: the time it takes to settle and how. *)
Record Task (A : Type) := { delay : N; outcome : Settled A }.
Arguments delay {A} t.
Arguments outcome {A} t.

Definition await {A} (t : Task A) : M A :=
  sleep (delay t) ;;;
  match outcome t with
  | Fulfilled a => ret a
  | Rejected e => throw e
  end.

Definition sooner (a b : N * nat) : Prop := (a.1 <= b.1)%N.

Global Instance sooner_dec : RelDecision sooner.
Proof. intros a b. unfold sooner. apply _. Defined.

(** The order in which concurrently started tasks settle: timers fire by
    increasing delay. *)
Definition completion_order {A} (tasks : list (Task A)) : list nat :=
  map snd (merge_sort sooner (zip (map delay tasks) (seq 0 (length tasks)))).

Definition max_delay {A} (tasks : list (Task A)) : N :=
  foldr N.max 0 (map delay tasks).

(** Each settling task writes its result into its own slot of the result
    array, whatever the order of settling. *)
Definition settle_slot {A} (tasks : list (Task A))
    (slots : list (option (Settled A))) (i : nat) : list (option (Settled A)) :=
  match tasks !! i with
  | Some t => <[i := Some (outcome t)]> slots
  | None => slots
  end.

Definition settle_slots {A} (tasks : list (Task A)) (order : list nat)
    : list (option (Settled A)) :=
  foldl (settle_slot tasks) (replicate (length tasks) None) order.

Fixpoint all_filled {A} (slots : list (option A)) : option (list A) :=
  match slots with
  | [] => Some []
  | None :: _ => None
  | Some a :: rest =>
      match all_filled rest with
      | Some l => Some (a :: l)
      | None => None
      end
  end.

(** [Promise.allSettled]: resolves, once every task has settled, with the
    results in the order of the input array. *)
Definition allSettled_in {A} (order : list nat) (tasks : list (Task A))
    : M (list (Settled A)) :=
  match all_filled (settle_slots tasks order) with
  | Some results => sleep (max_delay tasks) ;;; ret results
  | None => stall
  end.

Definition allSettled {A} (tasks : list (Task A)) : M (list (Settled A)) :=
  allSettled_in (completion_order tasks) tasks.

Definition fulfilled_value {A} (r : Settled A) : option A :=
  match r with Fulfilled a => Some a | Rejected _ => None end.

Definition rejection {A} (t : Task A) : option (N * Thrown) :=
  match outcome t with Fulfilled _ => None | Rejected e => Some (delay t, e) end.

(** [Promise.all]: resolves with every value in input order when all tasks
    fulfil, and otherwise rejects with the reason of the task that rejects
    first. *)
Definition promiseAll {A} (tasks : list (Task A)) : M (list A) :=
  match all_filled (map (fun t => fulfilled_value (outcome t)) tasks) with
  | Some values => sleep (max_delay tasks) ;;; ret values
  | None =>
      match omap (fun i => t ← tasks !! i; rejection t) (completion_order tasks) with
      | (d, e) :: _ => sleep d ;;; throw e
      | [] => stall
      end
  end.

(** ** Platform services the sources call but do not define *)

Class Platform := {
  (** whether [new URL(s)] returns instead of throwing *)
  URL_parses : string -> bool;
  (** [new Date(ms).toISOString()] *)
  toISOString : N -> string;
  (** [s.toUpperCase()], which leaves the modelled range of code units *)
  toUpperCase : string -> string
}.

(** [set.has(x)] on a [Set] of strings. *)
Definition has (x : string) (s : gset string) : bool := bool_decide (x ∈ s).

(** [locale.split('-')[0].toLowerCase()] *)
Definition langPart (l : Locale) : string :=
  JS.toLowerCase (default EmptyString (JS.first (JS.split "-" l))).

Definition Status_name (s : Status) : string :=
  match s with VALIDATED => "VALIDATED" | FAILED => "FAILED" end.

(** ** InboundOrchestrator *)

Section Inbound.
Context `{Platform}.

Definition isValidUrl (url : string) : bool :=
  if negb (JS.truthy url) then false else URL_parses url.

Definition euLocales : gset string :=
  list_to_set ["it"; "fr"; "de"; "es"; "pt"; "nl"; "be"; "at"; "ie";
               "pl"; "se"; "fi"; "dk"].

(** The [for ... of] loop with its [break]. *)
Fixpoint isEuTargeted (locales : list Locale) : bool :=
  match locales with
  | [] => false
  | l :: rest => if has (langPart l) euLocales then true else isEuTargeted rest
  end.

Definition computeGeoCompliance (locales : list Locale) : GeoCompliance :=
  let eu := isEuTargeted locales in
  {| requiresGDPR := eu;
     cookieConsentActive := eu;
     dataResidency := if eu then EU else GLOBAL |}.

Definition push_if (c : bool) (msg : string) (errs : list string) : list string :=
  if c then errs ++ [msg] else errs.

Definition validationErrors (input : BriefInput) : list string :=
  let errs := [] in
  let errs :=
    push_if (negb (JS.truthy (campaignId input))
             || (String.length (JS.trim (campaignId input)) <? 3)%nat)
      "Invariant Violation: campaignId must be at least 3 characters." errs in
  let errs :=
    push_if (negb (JS.truthy (brandName input))
             || (String.length (JS.trim (brandName input)) =? 0)%nat)
      "Invariant Violation: brandName is required." errs in
  let errs :=
    push_if (negb (JS.truthy (coreMessage input))
             || (String.length (JS.trim (coreMessage input)) <? 10)%nat)
      "Quality Gate: coreMessage too short for AI generation (<10 chars)." errs in
  let errs :=
    push_if (length (targetLocales input) =? 0)%nat
      "Invariant Violation: At least one targetLocale is required." errs in
  let errs :=
    push_if (negb (isValidUrl (logoUrl (assets input))))
      ("Asset Error: Invalid logoUrl format: " +:+ logoUrl (assets input)) errs in
  let errs :=
    push_if (negb (isValidUrl (keywordsCsvUrl (assets input))))
      ("Asset Error: Invalid keywordsCsvUrl format: "
         +:+ keywordsCsvUrl (assets input)) errs in
  errs.

Definition validateInput (input : BriefInput) : M ValidatedProject :=
  journal CallValidate ;;;
  let errs := validationErrors input in
  let st := if (0 <? length errs)%nat then FAILED else VALIDATED in
  let comp := computeGeoCompliance (targetLocales input) in
  t <- clock ;;
  ret {| projectId := campaignId input;
         timestamp := toISOString t;
         status := st;
         payload := input;
         compliance := comp |}.

End Inbound.

(** ** CreativeAIEngine *)

(** A generation provider: from the core message, the locale and the task's
    draw of [Math.random], the task it starts.  [stubAIGeneration] is the
    provider of the repository; the harness installs others in its place. *)
Definition Provider : Type := string -> Locale -> N -> Task UIContentVariant.

Section Creative.
Context `{Platform}.

Definition textHeavyLocales : gset string :=
  list_to_set ["de-DE"; "ru-RU"; "fi-FI"].

Definition determineLayout (l : Locale) : string :=
  if has l textHeavyLocales then "layout-wide-v2" else "layout-minimal-v1".

Definition stubAIGeneration : Provider :=
  fun coreMessage locale draw =>
    let latency := draw mod 150 + 50 in
    let localizedPrefix := "[" +:+ toUpperCase locale +:+ "]" in
    {| delay := latency;
       outcome := Fulfilled
         {| locale := locale;
            heroTitle := localizedPrefix +:+ " Future of Living: "
                           +:+ JS.substring coreMessage 0 20 +:+ "...";
            bodyCopy := localizedPrefix +:+ " Experience the " +:+ coreMessage
                          +:+ " in a way that respects your local culture. This is a generated description ensuring semantic consistency.";
            ctaText := localizedPrefix +:+ " Discover More";
            layoutId := determineLayout locale |} |}.

Definition stubPersistenceLayer (output : CreativeEngineOutput) : M unit :=
  journal CallPersist ;;; sleep 100 ;;; sleep 100.

(** The body of [results.forEach]: push onto [variants] or onto [errors]. *)
Definition collect (acc : list UIContentVariant * list string)
    (result : Settled UIContentVariant) : list UIContentVariant * list string :=
  match result with
  | Fulfilled value => (acc.1 ++ [value], acc.2)
  | Rejected reason => (acc.1, acc.2 ++ [String_of reason])
  end.

(** The promises [targetLocales.map(async locale => ...)] creates; the
    i-th one owns the i-th draw. *)
Definition variantPromises (gen : Provider) (project : ValidatedProject)
    (rs : list N) : list (Task UIContentVariant) :=
  zip_with (gen (coreMessage (payload project)))
           (targetLocales (payload project)) rs.

Definition generateCreatives (gen : Provider) (project : ValidatedProject)
    : M CreativeEngineOutput :=
  journal CallGenerate ;;;
  match status project with
  | FAILED =>
      throw (JsError ("[CreativeAIEngine] Invariant Violation: Cannot process project with status "
                        +:+ Status_name (status project)))
  | VALIDATED =>
      rs <- draws (length (targetLocales (payload project))) ;;
      results <- allSettled (variantPromises gen project rs) ;;
      let acc := foldl collect ([], []) results in
      let output :=
        {| ceo_projectId := projectId project;
           variants := acc.1;
           generationModel := "gpt-4o-stub-v1";
           errors := if (0 <? length acc.2)%nat then Some acc.2 else None |} in
      stubPersistenceLayer output ;;;
      ret output
  end.

End Creative.

(** ** SeoSemanticAgent *)

Section Seo.

Definition MAX_TITLE_LENGTH : nat := 60.
Definition MAX_DESC_LENGTH : nat := 160.

Definition truncate (text : string) (maxLength : nat) : string :=
  if (String.length text <=? maxLength)%nat then text
  else JS.substring text 0 (maxLength - 3) +:+ "...".

Definition stubUrlBuilder (l : Locale) : string :=
  "https://microsite-factory.com/" +:+ l +:+ "/campaign-mvc".

Definition supportedLocales : list Locale :=
  ["en-US"; "it-IT"; "fr-FR"; "es-ES"; "de-DE"].

(** [map[loc] = this.stubUrlBuilder(loc)] for each supported locale. *)
Definition generateHreflangMap : gmap Locale string :=
  foldl (fun map loc => <[loc := stubUrlBuilder loc]> map) ∅ supportedLocales.

Definition keywordMap : list (string * list string) :=
  [("en-US", ["Best Villas"; "Luxury Living"; "Investment"]);
   ("it-IT", ["Migliori Ville"; "Vita di Lusso"; "Investimenti"]);
   ("fr-FR", ["Meilleures Villas"; "Vie de Luxe"; "Investissement"]);
   ("es-ES", ["Mejores Villas"; "Vida de Lujo";
              "Inversi" +:+ String "243"%char "n"]);
   ("de-DE", ["Besten Villen"; "Luxusleben"; "Investition"])].

(** Members every object literal inherits from [Object.prototype]; each
    is truthy and has no element [0]. *)
Definition objectPrototypeMembers : list string :=
  ["constructor"; "__defineGetter__"; "__defineSetter__"; "hasOwnProperty";
   "__lookupGetter__"; "__lookupSetter__"; "isPrototypeOf";
   "propertyIsEnumerable"; "toString"; "valueOf"; "__proto__";
   "toLocaleString"].

(** [keywordMap[locale] || ['Luxury Real Estate']] *)
Definition stubKeywordDatabase (l : Locale) : Keywords :=
  match (list_to_map keywordMap : gmap string (list string)) !! l with
  | Some ks => KwArray ks
  | None =>
      if bool_decide (l ∈ objectPrototypeMembers) then KwInherited l
      else KwArray ["Luxury Real Estate"]
  end.

(** [keywords[0] || 'Brand'] *)
Definition primaryKeyword (keywords : Keywords) : string :=
  match keywords with
  | KwArray ks =>
      match JS.first ks with
      | Some k => if JS.truthy k then k else "Brand"
      | None => "Brand"
      end
  | KwInherited _ => "Brand"
  end.

Definition generateMetadata (variant : UIContentVariant) (keyword : string)
    : SEOMetadata :=
  let rawTitle := heroTitle variant +:+ " | " +:+ keyword in
  let title := truncate rawTitle MAX_TITLE_LENGTH in
  let rawDesc := JS.substring (bodyCopy variant) 0 100 +:+ "... "
                   +:+ ctaText variant in
  let description := truncate rawDesc MAX_DESC_LENGTH in
  let canonicalUrl := stubUrlBuilder (locale variant) in
  let hreflangMap := generateHreflangMap in
  let structuredData :=
    {| sd_context := "https://schema.org";
       sd_type := "WebPage";
       sd_name := title;
       sd_description := description;
       sd_inLanguage := locale variant |} in
  {| title := title;
     description := description;
     ogTags := <["og:url" := canonicalUrl]>
                 (<["og:locale" := locale variant]>
                    (<["og:description" := description]>
                       (<["og:title" := title]> ∅)));
     canonicalUrl := canonicalUrl;
     hreflang := hreflangMap;
     structuredData := structuredData |}.

(** The promise one call of the async [optimizeSEO] returns: rejected at
    once when the variant is invalid, fulfilled after the keyword lookup
    (20 ms) otherwise. *)
Definition optimizeSEO_task (variant : UIContentVariant)
    : Task SEOOptimizedVariant :=
  if negb (JS.truthy (locale variant)) || negb (JS.truthy (heroTitle variant))
  then {| delay := 0;
          outcome := Rejected (JsError
            ("[SeoSemanticAgent] Invariant Violation: Invalid input variant for locale "
               +:+ locale variant)) |}
  else
    let keywords := stubKeywordDatabase (locale variant) in
    let seoMetadata := generateMetadata variant (primaryKeyword keywords) in
    {| delay := 20;
       outcome := Fulfilled {| content := variant;
                               seo := seoMetadata;
                               keywordsApplied := keywords |} |}.

Definition optimizeSEO (variant : UIContentVariant) : M SEOOptimizedVariant :=
  journal (CallOptimize (locale variant)) ;;;
  await (optimizeSEO_task variant).

End Seo.

(** ** GeoDeploymentHub *)

Section GeoHub.

Definition euPrefixes : gset string :=
  list_to_set ["it"; "fr"; "de"; "es"; "pt"; "nl"; "be"; "at"; "ie"].

Definition isEuLocale (l : Locale) : bool := has (langPart l) euPrefixes.

(** The body of [locales.forEach], on the pair (euCount, usCount). *)
Definition tally (counts : nat * nat) (loc : Locale) : nat * nat :=
  if isEuLocale loc then (S counts.1, counts.2) else (counts.1, S counts.2).

Definition determineEdgeRegion (locales : list Locale) : string :=
  let '(euCount, usCount) := foldl tally (0, 0)%nat locales in
  if (usCount <? euCount)%nat then "fra1"
  else if (0 <? usCount)%nat then "iad1"
  else "global".

Definition stubVercelDeploy (rules : MiddlewareRules) (region : string)
    : M string :=
  journal (CallVercel region) ;;;
  sleep 200 ;;;
  t <- clock ;;
  ret ("dpl_" +:+ region +:+ "_" +:+ JS.toString36 t).

Definition stubTelemetryProvisioning (deploymentId : string) : M string :=
  journal (CallTelemetry deploymentId) ;;;
  sleep 50 ;;;
  ret ("https://analytics.microsite-factory.com/v1/events/" +:+ deploymentId).

Definition executeGeoDeploy (seoVariants : list SEOOptimizedVariant)
    (compliance : GeoCompliance) : M DeploymentConfig :=
  journal CallDeploy ;;;
  if (length seoVariants =? 0)%nat then
    throw (JsError "[GeoDeploymentHub] Invariant Violation: No variants provided for deployment.")
  else
    let rules := {| geoBlocking := false;
                    consentRequired := requiresGDPR compliance |} in
    let targetRegion :=
      determineEdgeRegion (map (fun v => locale (content v)) seoVariants) in
    deploymentId <- stubVercelDeploy rules targetRegion ;;
    telemetryEndpoint <- stubTelemetryProvisioning deploymentId ;;
    ret {| deploymentId := deploymentId;
           edgeRegion := targetRegion;
           isLive := true;
           telemetryEndpoint := telemetryEndpoint;
           middlewareRules := rules |}.

End GeoHub.

(** ** MainOrchestrator *)

Section Orchestrator.
Context `{Platform}.

(** [variants.map(v => this.optimizeSEO(v))] enters every call before any
    of them settles; [Promise.all] then joins them. *)
Definition optimizeAll (vs : list UIContentVariant)
    : M (list SEOOptimizedVariant) :=
  foldr (fun v k => journal (CallOptimize (locale v)) ;;; k) (ret tt) vs ;;;
  promiseAll (map optimizeSEO_task vs).

Definition runPipeline (gen : Provider) (brief : BriefInput)
    : M DeploymentConfig :=
  validatedProjet <- validateInput brief ;;
  match status validatedProjet with
  | FAILED => throw (JsError "Pipeline Halted: Input validation failed.")
  | VALIDATED =>
      creativeOutput <- generateCreatives gen validatedProjet ;;
      seoVariants <- optimizeAll (variants creativeOutput) ;;
      executeGeoDeploy seoVariants (compliance validatedProjet)
  end.

End Orchestrator.

(** ** A platform and a world to run the model on

    [example_platform] accepts as URLs the strings with an [https://] or
    [http://] scheme followed by something, which is what the URL parser
    does on the URLs of the examples below; it upper-cases the letters a-z
    only, and its time stamps are a stand-in (the millisecond count in
    base 36) on which no property depends. *)

Definition example_upper (c : ascii) : ascii :=
  if JS.between 97 122 (JS.code c) then ascii_of_N (JS.code c - 32) else c.

Fixpoint example_toUpperCase (s : string) : string :=
  match s with
  | EmptyString => EmptyString
  | String c s' => String (example_upper c) (example_toUpperCase s')
  end.

Definition example_platform : Platform :=
  {| URL_parses := fun s =>
       (String.prefix "https://" s && (8 <? String.length s)%nat)
       || (String.prefix "http://" s && (7 <? String.length s)%nat);
     toISOString := fun t => "ms:" +:+ JS.toString36 t;
     toUpperCase := example_toUpperCase |}.

Definition example_world : World :=
  {| now := 1700000000000;
     rand := fun i => N.of_nat (i * 37);
     drawn := 0;
     calls := [] |}.

Definition example_brief : BriefInput :=
  {| campaignId := "integration-test-2026";
     brandName := "Lusitano Luxury";
     coreMessage := "Exclusive villas in Comporta with sustainable design.";
     targetLocales := ["en-US"; "it-IT"; "de-DE"];
     assets := {| logoUrl := "https://via.placeholder.com/150";
                  keywordsCsvUrl := "https://example.com/keywords.csv" |} |}.

(** The provider the partial-failure scenario of the harness installs. *)
Definition failing_provider : Provider :=
  fun coreMessage locale draw =>
    if bool_decide (locale = "de-DE") || bool_decide (locale = "ja-JP")
    then {| delay := 0;
            outcome := Rejected (JsError ("Simulated API Timeout for " +:+ locale)) |}
    else {| delay := 50;
            outcome := Fulfilled
              {| locale := locale;
                 heroTitle := "[" +:+ locale +:+ "] Valid";
                 bodyCopy := "Valid content for " +:+ locale;
                 ctaText := "Click";
                 layoutId := "layout-standard" |} |}.

(** The brief and the validated project of the partial-failure scenario:
    ten locales, of which the provider above fails de-DE and ja-JP. *)
Definition scenario_brief : BriefInput :=
  {| campaignId := "sc1-partial-failure";
     brandName := "TestBrand";
     coreMessage := "Resilience is key to distributed systems.";
     targetLocales := ["en-US"; "it-IT"; "fr-FR"; "es-ES"; "pt-PT"; "nl-NL";
                       "pl-PL"; "se-SE"; "de-DE"; "ja-JP"];
     assets := {| logoUrl := "https://ok.com/logo.png";
                  keywordsCsvUrl := "https://ok.com/kw.csv" |} |}.

Definition scenario_project : ValidatedProject :=
  {| projectId := "sc1-partial-failure";
     timestamp := "ms:loyw3v28";
     status := VALIDATED;
     payload := scenario_brief;
     compliance := computeGeoCompliance (targetLocales scenario_brief) |}.

(** ** Vocabulary of the specification *)

Abbreviation chars := String.list_ascii_of_string.

(** How many locales of a list the deployment hub classifies as EU, and
    how many as non-EU. *)
Definition euCount (ls : list Locale) : nat :=
  length (List.filter isEuLocale ls).

Definition nonEuCount (ls : list Locale) : nat :=
  length (List.filter (fun l => negb (isEuLocale l)) ls).

(** Region selection as the specification words it: strict EU majority,
    strict non-EU majority, tie. *)
Definition region_by_majority (ls : list Locale) : Prop :=
  ((nonEuCount ls < euCount ls)%nat -> determineEdgeRegion ls = "fra1")
  /\ ((euCount ls < nonEuCount ls)%nat -> determineEdgeRegion ls = "iad1")
  /\ (euCount ls = nonEuCount ls -> determineEdgeRegion ls = "global").

(** [p] is the language prefix of the locale [l]: what precedes its first
    '-' separator, or all of [l] when it has none. *)
Definition languagePrefix (l p : string) : Prop :=
  exists rest,
    l = p +:+ rest
    /\ ("-"%char ∉ chars p)
    /\ (rest = EmptyString \/ exists r, rest = String "-" r).

(** Two characters are the same letter up to case: equal, or the upper-
    and lower-case forms of one of the letters A-Z. *)
Definition sameLetter (c d : ascii) : Prop :=
  c = d
  \/ (JS.between 65 90 (JS.code c) = true /\ JS.code d = JS.code c + 32)
  \/ (JS.between 65 90 (JS.code d) = true /\ JS.code c = JS.code d + 32).

Definition sameIgnoringCase (s t : string) : Prop :=
  Forall2 sameLetter (chars s) (chars t).

(** At least one locale of [ls] has a language prefix that is, up to case,
    a member of the validator's EU set. *)
Definition targetsEU (ls : list Locale) : Prop :=
  exists l p e,
    l ∈ ls /\ languagePrefix l p /\ e ∈ euLocales /\ sameIgnoringCase p e.

Definition lowercaseAZ (s : string) : Prop :=
  Forall (fun d => JS.between 97 122 (JS.code d) = true) (chars s).

(** The five checks of the validator over a brief, with the length of a
    text field taken by [measure]: the plain length in the wording of the
    specification, the length after [trim] in the code. *)
Definition validUrl `{Platform} (url : string) : Prop :=
  url <> EmptyString /\ URL_parses url = true.

Definition five_checks `{Platform} (measure : string -> nat)
    (input : BriefInput) : Prop :=
  (3 <= measure (campaignId input))%nat
  /\ (0 < measure (brandName input))%nat
  /\ (10 <= measure (coreMessage input))%nat
  /\ (0 < length (targetLocales input))%nat
  /\ validUrl (logoUrl (assets input))
  /\ validUrl (keywordsCsvUrl (assets input)).

Definition trimmedLength (s : string) : nat := String.length (JS.trim s).

(** Validation returns a project whose status is FAILED exactly when one
    of the five checks, under [measure], fails. *)
Definition validation_decides `{Platform} (measure : string -> nat)
    (input : BriefInput) (w : World) : Prop :=
  exists project w',
    validateInput input w = (Returned project, w')
    /\ (status project = FAILED <-> ~ five_checks measure input)
    /\ (status project = VALIDATED <-> five_checks measure input).

(** A brief whose campaign identifier has three characters, one of them
    trailing white space. *)
Definition padded_brief : BriefInput :=
  {| campaignId := "ab ";
     brandName := "Lusitano Luxury";
     coreMessage := "Exclusive villas in Comporta with sustainable design.";
     targetLocales := ["en-US"];
     assets := {| logoUrl := "https://via.placeholder.com/150";
                  keywordsCsvUrl := "https://example.com/keywords.csv" |} |}.

(** The generation tasks a run of [generateCreatives] in world [w] starts,
    in submission order, and how many of them fail. *)
Definition launched (gen : Provider) (project : ValidatedProject) (w : World)
    : list (Task UIContentVariant) :=
  variantPromises gen project
    (map (rand w) (seq (drawn w) (length (targetLocales (payload project))))).

Definition failed {A} (t : Task A) : bool :=
  match outcome t with Rejected _ => true | Fulfilled _ => false end.

Definition failureCount (gen : Provider) (project : ValidatedProject)
    (w : World) : nat :=
  length (List.filter failed (launched gen project w)).

(** The failure messages an outcome carries ([errors] is left undefined
    when there is none). *)
Definition failureMessages (out : CreativeEngineOutput) : list string :=
  default [] (errors out).

(** The target locales whose task succeeded, in submission order. *)
Definition succeededLocales (gen : Provider) (project : ValidatedProject)
    (w : World) : list Locale :=
  omap (fun lt => if failed lt.2 then None else Some lt.1)
       (zip (targetLocales (payload project)) (launched gen project w)).

(** A provider that tags each variant with the locale it was asked for. *)
Definition respects_locale (gen : Provider) : Prop :=
  forall msg l r v, outcome (gen msg l r) = Fulfilled v -> locale v = l.

Definition rejection_message {A} (r : Settled A) : option string :=
  match r with Rejected e => Some (String_of e) | Fulfilled _ => None end.

(** A computation only ever appends to the call journal. *)
Definition extends_journal {A} (m : M A) : Prop :=
  forall w r w', m w = (r, w') -> exists evs, calls w' = calls w ++ evs.

(** What remains of the pipeline once generation has returned [out]. *)
Definition after_generation `{Platform} (project : ValidatedProject)
    (out : CreativeEngineOutput) : M DeploymentConfig :=
  seoVariants <- optimizeAll (variants out) ;;
  executeGeoDeploy seoVariants (compliance project).

(** A brief that fails validation: its core message is too short. *)
Definition short_brief : BriefInput :=
  {| campaignId := "sc2-drift-check";
     brandName := "DriftLess";
     coreMessage := "GDPR";
     targetLocales := ["fr-FR"];
     assets := {| logoUrl := "https://x.com/l.png";
                  keywordsCsvUrl := "https://x.com/k.csv" |} |}.

(** ** Vocabulary of the further properties *)

(** The check [optimizeSEO] makes on its input, and the error it throws
    when the check fails. *)
Definition validVariant (v : UIContentVariant) : bool :=
  JS.truthy (locale v) && JS.truthy (heroTitle v).

Definition seoError (v : UIContentVariant) : Thrown :=
  JsError ("[SeoSemanticAgent] Invariant Violation: Invalid input variant for locale "
             +:+ locale v).

(** The page [optimizeSEO] makes of a valid variant. *)
Definition optimizedValue (v : UIContentVariant) : SEOOptimizedVariant :=
  {| content := v;
     seo := generateMetadata v (primaryKeyword (stubKeywordDatabase (locale v)));
     keywordsApplied := stubKeywordDatabase (locale v) |}.

(** The generation tasks a pipeline run on [brief] starts in world [w]. *)
Definition briefTasks (gen : Provider) (brief : BriefInput) (w : World)
    : list (Task UIContentVariant) :=
  zip_with (gen (coreMessage brief)) (targetLocales brief)
    (map (rand w) (seq (drawn w) (length (targetLocales brief)))).

(** World [w'] is [w] after [ms] milliseconds, [k] draws and the calls
    [evs]. *)
Definition evolved (w w' : World) (ms : N) (k : nat) (evs : list Event) : Prop :=
  now w' = now w + ms
  /\ rand w' = rand w
  /\ drawn w' = (drawn w + k)%nat
  /\ calls w' = calls w ++ evs.

(** Reading a base-36 numeral. *)
Definition digitValue (c : ascii) : N :=
  if JS.code c <? 58 then JS.code c - 48 else JS.code c - 87.

Fixpoint parse36_from (v : N) (s : string) : N :=
  match s with
  | EmptyString => v
  | String c s' => parse36_from (v * 36 + digitValue c) s'
  end.

Definition parse36 (s : string) : N := parse36_from 0 s.

Definition allWhiteSpace (s : string) : Prop :=
  Forall (fun c => JS.isWhiteSpace c = true) (chars s).

Definition deployError : Thrown :=
  JsError "[GeoDeploymentHub] Invariant Violation: No variants provided for deployment.".

(** The variant the repository's provider writes for a locale. *)
Definition stubVariant `{Platform} (coreMessage : string) (l : Locale)
    : UIContentVariant :=
  let localizedPrefix := "[" +:+ toUpperCase l +:+ "]" in
  {| locale := l;
     heroTitle := localizedPrefix +:+ " Future of Living: "
                    +:+ JS.substring coreMessage 0 20 +:+ "...";
     bodyCopy := localizedPrefix +:+ " Experience the " +:+ coreMessage
                   +:+ " in a way that respects your local culture. This is a generated description ensuring semantic consistency.";
     ctaText := localizedPrefix +:+ " Discover More";
     layoutId := determineLayout l |}.

(** The variants of the tasks of a run that succeed, in submission order. *)
Definition succeededVariants (gen : Provider) (brief : BriefInput) (w : World)
    : list UIContentVariant :=
  omap (fun t => fulfilled_value (outcome t)) (briefTasks gen brief w).

Definition haltError : Thrown :=
  JsError "Pipeline Halted: Input validation failed.".

(** A text with white space put before and after it, and a brief whose
    three text fields are padded that way. *)
Definition pad (l r s : string) : string := l +:+ s +:+ r.

Definition paddedBrief (l r : string) (input : BriefInput) : BriefInput :=
  {| campaignId := pad l r (campaignId input);
     brandName := pad l r (brandName input);
     coreMessage := pad l r (coreMessage input);
     targetLocales := targetLocales input;
     assets := assets input |}.

(** The title before truncation of the page made of a variant. *)
Definition rawTitle (v : UIContentVariant) : string :=
  heroTitle v +:+ " | " +:+ primaryKeyword (stubKeywordDatabase (locale v)).

(** * Properties *)

(** ** Strings *)

Lemma length_append s t :
  String.length (s +:+ t) = (String.length s + String.length t)%nat.
Proof. induction s as [|c s IH]; simpl; [done | by rewrite IH]. Qed.

Lemma substring_from_0 s k : JS.substring s 0 k = String.substring 0 k s.
Proof. unfold JS.substring. by rewrite Nat.min_0_l, Nat.max_0_l, Nat.sub_0_r. Qed.

Lemma length_substring_0 k s :
  String.length (String.substring 0 k s) = Nat.min k (String.length s).
Proof.
  revert s. induction k as [|k IH]; intros [|c s]; simpl; try done.
  by rewrite IH.
Qed.

Lemma prefix_substring_0 k s : String.prefix (String.substring 0 k s) s = true.
Proof.
  revert s. induction k as [|k IH]; intros [|c s]; simpl; try done.
  destruct (ascii_dec c c); [apply IH | done].
Qed.

(** *** Language prefix and case *)

Lemma split_first (sep c : ascii) (s : string) :
  JS.first (JS.split sep (String c s))
  = if Ascii.eqb c sep then Some EmptyString
    else Some (String c (default EmptyString (JS.first (JS.split sep s)))).
Proof.
  cbn [JS.split]. destruct (Ascii.eqb c sep); [done|].
  by destruct (JS.split sep s).
Qed.

Lemma split_first_prefix (l p : string) :
  default EmptyString (JS.first (JS.split "-" l)) = p <-> languagePrefix l p.
Proof.
  split.
  - intros <-. induction l as [|c s IH].
    + exists EmptyString. cbn. split; [done|]. split; [apply not_elem_of_nil | by left].
    + rewrite split_first. destruct (Ascii.eqb_spec c "-") as [->|Hc].
      * exists (String "-" s). cbn. split; [done|].
        split; [apply not_elem_of_nil | right; eauto].
      * destruct IH as (rest & Hl & Hno & Hrest). exists rest. cbn.
        split; [exact (f_equal (String c) Hl)|]. split; [|done].
        rewrite not_elem_of_cons. split; [congruence | done].
  - intros (rest & -> & Hno & Hrest). induction p as [|c p IH].
    + cbn. by destruct Hrest as [->|[r ->]].
    + cbn in Hno. apply not_elem_of_cons in Hno as [Hc Hno].
      change (String c p +:+ rest) with (String c (p +:+ rest)).
      rewrite split_first. destruct (Ascii.eqb_spec c "-") as [->|_]; [done|].
      cbn. by rewrite IH.
Qed.

Lemma code_bounded (c : ascii) : JS.code c < 256.
Proof. apply N_ascii_bounded. Qed.

Lemma between_spec (lo hi n : N) :
  JS.between lo hi n = true <-> lo <= n /\ n <= hi.
Proof. unfold JS.between. rewrite andb_true_iff, !N.leb_le. done. Qed.

Lemma lowerChar_sameLetter (c d : ascii) :
  JS.between 97 122 (JS.code d) = true ->
  JS.lowerChar c = d <-> sameLetter c d.
Proof.
  intros Hd. apply between_spec in Hd. unfold JS.lowerChar, sameLetter.
  pose proof (code_bounded c) as Hc.
  destruct (JS.isUpper c) eqn:Hup.
  - unfold JS.isUpper in Hup. rewrite !orb_true_iff, !between_spec in Hup.
    split.
    + intros <-. right. left.
      assert (JS.code (ascii_of_N (JS.code c + 32)) = JS.code c + 32) as Hcode
        by (apply N_ascii_embedding; lia).
      rewrite Hcode in *. rewrite between_spec. lia.
    + intros [->|[[Hb Hcd]|[Hb Hcd]]].
      * lia.
      * rewrite <- Hcd. apply ascii_N_embedding.
      * apply between_spec in Hb. lia.
  - unfold JS.isUpper in Hup. rewrite !orb_false_iff in Hup.
    destruct Hup as [[Hup _] _].
    split; [by left|]. intros [->|[[Hb _]|[Hb _]]]; [done|congruence|].
    apply between_spec in Hb. lia.
Qed.

Lemma toLowerCase_sameIgnoringCase (p e : string) :
  lowercaseAZ e -> JS.toLowerCase p = e <-> sameIgnoringCase p e.
Proof.
  unfold lowercaseAZ, sameIgnoringCase. revert e.
  induction p as [|c p IH]; intros [|d e] He; cbn.
  - split; [constructor | done].
  - split; [done | by inversion 1].
  - split; [done | by inversion 1].
  - cbn in He. apply Forall_cons in He as [Hd He]. split.
    + intros [= Hc Hp]. constructor; [by apply lowerChar_sameLetter | by apply IH].
    + inversion 1; subst. f_equal; [by apply lowerChar_sameLetter | by apply IH].
Qed.

(** ** SEO truncation *)

Lemma truncate_short text limit :
  (String.length text <= limit)%nat -> truncate text limit = text.
Proof.
  intros Hle. unfold truncate.
  by destruct (Nat.leb_spec (String.length text) limit); [|lia].
Qed.

Lemma truncate_long text limit :
  (3 <= limit)%nat -> (limit < String.length text)%nat ->
  truncate text limit = String.substring 0 (limit - 3) text +:+ "..."
  /\ String.length (truncate text limit) = limit.
Proof.
  intros H3 Hlt. unfold truncate.
  destruct (Nat.leb_spec (String.length text) limit); [lia|].
  rewrite substring_from_0. split; [done|].
  rewrite length_append, length_substring_0. simpl. lia.
Qed.

(** C7. Truncation at the title limit (60) and at the description limit
    (160) returns a text that fits unchanged, and cuts a longer one to
    exactly the limit, keeping a prefix of the text and ending in the
    three characters "..."; [generateMetadata] applies it with these two
    limits to the raw title and the raw description. *)
Theorem truncate_title_and_description (text : string) (limit : nat) :
  limit = MAX_TITLE_LENGTH \/ limit = MAX_DESC_LENGTH ->
  ((String.length text <= limit)%nat -> truncate text limit = text)
  /\ ((limit < String.length text)%nat ->
        String.length (truncate text limit) = limit
        /\ exists kept, truncate text limit = kept +:+ "..."
                        /\ String.prefix kept text = true)
  /\ (forall variant keyword,
        title (generateMetadata variant keyword)
          = truncate (heroTitle variant +:+ " | " +:+ keyword) 60
        /\ description (generateMetadata variant keyword)
          = truncate (JS.substring (bodyCopy variant) 0 100 +:+ "... "
                        +:+ ctaText variant) 160).
Proof.
  intros Hlimit.
  assert (3 <= limit)%nat as H3
    by (unfold MAX_TITLE_LENGTH, MAX_DESC_LENGTH in Hlimit; lia).
  split; [apply truncate_short|]. split; [|done].
  intros Hlt. destruct (truncate_long text limit H3 Hlt) as [Heq Hlen].
  split; [done|]. exists (String.substring 0 (limit - 3) text).
  split; [done | apply prefix_substring_0].
Qed.

Lemma truncate_title_and_description_witness :
  truncate "Luxury" 60 = "Luxury"
  /\ String.length
       (truncate "[EN-US] Future of Living: Exclusive villas in C... | Best Villas" 60)
     = 60%nat.
Proof.
  pose proof (truncate_title_and_description "Luxury" 60 (or_introl eq_refl))
    as (Hshort & _ & _).
  pose proof (truncate_title_and_description
                "[EN-US] Future of Living: Exclusive villas in C... | Best Villas"
                60 (or_introl eq_refl)) as (_ & Hlong & _).
  split; [apply Hshort; simpl; lia | apply Hlong; simpl; lia].
Defined.

(** ** Hreflang mapping *)

Lemma generateHreflangMap_lookup (l : Locale) :
  generateHreflangMap !! l
  = if bool_decide (l ∈ supportedLocales) then Some (stubUrlBuilder l) else None.
Proof.
  unfold generateHreflangMap, supportedLocales. simpl.
  repeat (rewrite lookup_insert; case_decide;
          [subst l; by rewrite bool_decide_eq_true_2 by (repeat constructor)|]).
  rewrite lookup_empty, bool_decide_eq_false_2; [done|].
  rewrite !elem_of_cons, elem_of_nil. intuition congruence.
Qed.

Lemma optimizeSEO_valid (variant : UIContentVariant) (w : World) :
  JS.truthy (locale variant) = true -> JS.truthy (heroTitle variant) = true ->
  exists o w',
    optimizeSEO variant w = (Returned o, w')
    /\ content o = variant
    /\ seo o = generateMetadata variant
                 (primaryKeyword (stubKeywordDatabase (locale variant))).
Proof.
  intros Hl Ht. unfold optimizeSEO, optimizeSEO_task, await, bind, journal, sleep.
  rewrite Hl, Ht. simpl. eauto.
Qed.

(** C8. For every variant with a non-empty locale and headline, whatever
    that locale is, [optimizeSEO] returns, and the hreflang mapping of the
    result has exactly the five reference locales en-US, it-IT, fr-FR,
    es-ES and de-DE as keys, each mapped to the URL the canonical-URL
    builder gives for it; the canonical URL is that builder applied to the
    variant's own locale. *)
Theorem hreflang_covers_reference_set (variant : UIContentVariant) (w : World) :
  JS.truthy (locale variant) = true -> JS.truthy (heroTitle variant) = true ->
  exists o w',
    optimizeSEO variant w = (Returned o, w')
    /\ (forall l, hreflang (seo o) !! l
                  = if bool_decide (l ∈ ["en-US"; "it-IT"; "fr-FR"; "es-ES"; "de-DE"])
                    then Some (stubUrlBuilder l) else None)
    /\ dom (hreflang (seo o))
       = list_to_set ["en-US"; "it-IT"; "fr-FR"; "es-ES"; "de-DE"]
    /\ size (hreflang (seo o)) = 5%nat
    /\ canonicalUrl (seo o) = stubUrlBuilder (locale variant).
Proof.
  intros Hl Ht.
  destruct (optimizeSEO_valid variant w Hl Ht) as (o & w' & Hrun & _ & Hseo).
  exists o, w'. rewrite Hseo. unfold generateMetadata.
  cbn [hreflang canonicalUrl]. split; [done|].
  split; [apply generateHreflangMap_lookup|].
  split; [|split; [by vm_compute | done]].
  apply set_eq. intros l.
  rewrite elem_of_dom, generateHreflangMap_lookup, elem_of_list_to_set.
  unfold supportedLocales.
  case_bool_decide; [by split; [|eauto] | by split; [intros []|]].
Qed.

Lemma hreflang_covers_reference_set_witness :
  exists o w',
    optimizeSEO {| locale := "ja-JP"; heroTitle := "[JA-JP] Future";
                   bodyCopy := "Body"; ctaText := "Go";
                   layoutId := "layout-minimal-v1" |} example_world
      = (Returned o, w')
    /\ hreflang (seo o) !! "de-DE"
       = Some "https://microsite-factory.com/de-DE/campaign-mvc"
    /\ hreflang (seo o) !! "ja-JP" = None.
Proof.
  destruct (hreflang_covers_reference_set
              {| locale := "ja-JP"; heroTitle := "[JA-JP] Future";
                 bodyCopy := "Body"; ctaText := "Go";
                 layoutId := "layout-minimal-v1" |} example_world
              eq_refl eq_refl) as (o & w' & Hrun & Hlook & _).
  exists o, w'. split; [exact Hrun|].
  split; [exact (Hlook "de-DE") | exact (Hlook "ja-JP")].
Defined.

(** ** Region selection *)

Lemma tally_counts (ls : list Locale) (eu us : nat) :
  foldl tally (eu, us) ls = ((eu + euCount ls)%nat, (us + nonEuCount ls)%nat).
Proof.
  revert eu us. induction ls as [|l ls IH]; intros eu us.
  - unfold euCount, nonEuCount. simpl. f_equal; lia.
  - cbn [foldl]. unfold tally at 2. cbn [fst snd].
    unfold euCount, nonEuCount in *. cbn [List.filter].
    destruct (isEuLocale l); rewrite IH; cbn [negb length]; f_equal; lia.
Qed.

Lemma counts_total (ls : list Locale) :
  (euCount ls + nonEuCount ls)%nat = length ls.
Proof.
  unfold euCount, nonEuCount. induction ls as [|l ls IH]; simpl; [done|].
  destruct (isEuLocale l); simpl; lia.
Qed.

Lemma determineEdgeRegion_cases (ls : list Locale) :
  determineEdgeRegion ls
  = if (nonEuCount ls <? euCount ls)%nat then "fra1"
    else if (0 <? nonEuCount ls)%nat then "iad1"
    else "global".
Proof. unfold determineEdgeRegion. by rewrite tally_counts. Qed.

(** C1, as the specification words it, fails on a tie: one EU and one
    non-EU locale select the North-American region, not the fallback. *)
Lemma region_by_majority_fails_on_tie :
  ~ region_by_majority ["en-US"; "it-IT"].
Proof.
  intros (_ & _ & Htie).
  assert (determineEdgeRegion ["en-US"; "it-IT"] = "global") as Hglobal
    by (apply Htie; by vm_compute).
  vm_compute in Hglobal. discriminate.
Qed.

(** C1, amended. For every non-empty list of locales, region selection
    returns "fra1" when the EU-classified locales are strictly more than
    the others and "iad1" in every other case, a tie included; the
    fallback "global" is the answer for the empty list only. *)
Theorem region_selection (ls : list Locale) :
  ls <> [] ->
  ((nonEuCount ls < euCount ls)%nat -> determineEdgeRegion ls = "fra1")
  /\ ((euCount ls <= nonEuCount ls)%nat -> determineEdgeRegion ls = "iad1")
  /\ determineEdgeRegion ls <> "global"
  /\ determineEdgeRegion [] = "global".
Proof.
  intros Hne. pose proof (counts_total ls) as Htot.
  assert (0 < length ls)%nat as Hlen by (destruct ls; [done | simpl; lia]).
  rewrite determineEdgeRegion_cases.
  destruct (Nat.ltb_spec (nonEuCount ls) (euCount ls)) as [Hlt|Hge].
  - split; [done|]. split; [lia|]. by split.
  - destruct (Nat.ltb_spec 0 (nonEuCount ls)); [|lia].
    split; [lia|]. split; [done|]. by split.
Qed.

Lemma region_selection_witness :
  determineEdgeRegion ["en-US"; "it-IT"; "de-DE"] = "fra1"
  /\ determineEdgeRegion ["en-US"; "it-IT"] = "iad1".
Proof.
  split.
  - apply (region_selection ["en-US"; "it-IT"; "de-DE"]); [done|].
    vm_compute. lia.
  - apply (region_selection ["en-US"; "it-IT"]); [done|].
    vm_compute. lia.
Defined.

(** ** Policy-blind deployment *)

Lemma executeGeoDeploy_returns (vs : list SEOOptimizedVariant)
    (policy : GeoCompliance) (w : World) :
  vs <> [] ->
  exists cfg w',
    executeGeoDeploy vs policy w = (Returned cfg, w')
    /\ middlewareRules cfg
       = {| geoBlocking := false; consentRequired := requiresGDPR policy |}
    /\ edgeRegion cfg
       = determineEdgeRegion (map (fun v => locale (content v)) vs)
    /\ isLive cfg = true
    /\ exists rest, calls w' = calls w ++ CallDeploy :: rest.
Proof.
  intros Hne. destruct vs as [|v vs]; [done|].
  unfold executeGeoDeploy, stubVercelDeploy, stubTelemetryProvisioning,
    bind, journal, sleep, clock, ret.
  cbn [length Nat.eqb fst snd calls now].
  eexists _, _. split; [reflexivity|]. cbn [middlewareRules edgeRegion isLive calls].
  repeat split. eexists. rewrite <- !app_assoc. reflexivity.
Qed.

(** C3. For every non-empty list of optimized variants and every policy,
    deployment returns a configuration whose [consentRequired] is the
    policy's [requiresGDPR]; two runs with the same policy on different
    variants (and in different worlds) therefore agree on it. *)
Theorem consent_copied_from_policy
    (vs1 vs2 : list SEOOptimizedVariant) (policy : GeoCompliance)
    (w1 w2 : World) :
  vs1 <> [] -> vs2 <> [] ->
  exists cfg1 w1' cfg2 w2',
    executeGeoDeploy vs1 policy w1 = (Returned cfg1, w1')
    /\ executeGeoDeploy vs2 policy w2 = (Returned cfg2, w2')
    /\ consentRequired (middlewareRules cfg1) = requiresGDPR policy
    /\ consentRequired (middlewareRules cfg2) = requiresGDPR policy.
Proof.
  intros H1 H2.
  destruct (executeGeoDeploy_returns vs1 policy w1 H1) as (c1 & w1' & E1 & R1 & _).
  destruct (executeGeoDeploy_returns vs2 policy w2 H2) as (c2 & w2' & E2 & R2 & _).
  exists c1, w1', c2, w2'. rewrite R1, R2. by repeat split.
Qed.

Lemma consent_copied_from_policy_witness :
  let forged := {| requiresGDPR := false; cookieConsentActive := false;
                   dataResidency := GLOBAL |} in
  let page l := {| locale := l; heroTitle := "Bonjeur"; bodyCopy := "Oui";
                   ctaText := "Allez"; layoutId := "std" |} in
  let variant l := {| content := page l;
                      seo := generateMetadata (page l) "Brand";
                      keywordsApplied := KwArray [] |} in
  exists cfg1 w1' cfg2 w2',
    executeGeoDeploy [variant "fr-FR"] forged example_world = (Returned cfg1, w1')
    /\ executeGeoDeploy [variant "en-US"; variant "ja-JP"] forged example_world
       = (Returned cfg2, w2')
    /\ consentRequired (middlewareRules cfg1) = false
    /\ consentRequired (middlewareRules cfg2) = false.
Proof.
  intros forged page variant.
  exact (consent_copied_from_policy [variant "fr-FR"]
           [variant "en-US"; variant "ja-JP"] forged example_world example_world
           ltac:(discriminate) ltac:(discriminate)).
Defined.

(** ** Compliance derivation *)

Lemma euLocales_lowercase (e : string) : e ∈ euLocales -> lowercaseAZ e.
Proof.
  unfold euLocales. rewrite elem_of_list_to_set, !elem_of_cons, elem_of_nil.
  intros Hin. repeat (destruct Hin as [->|Hin]; [by repeat constructor|]).
  done.
Qed.

Lemma has_langPart_euLocales (l : Locale) :
  has (langPart l) euLocales = true
  <-> exists p e, languagePrefix l p /\ e ∈ euLocales /\ sameIgnoringCase p e.
Proof.
  unfold has, langPart. rewrite bool_decide_eq_true. split.
  - intros Hin. eexists _, _. split; [by apply split_first_prefix|].
    split; [exact Hin|].
    apply toLowerCase_sameIgnoringCase; [by apply euLocales_lowercase | done].
  - intros (p & e & Hp & He & Hs). apply split_first_prefix in Hp. rewrite Hp.
    apply toLowerCase_sameIgnoringCase in Hs; [by rewrite Hs|].
    by apply euLocales_lowercase.
Qed.

Lemma isEuTargeted_targetsEU (ls : list Locale) :
  isEuTargeted ls = true <-> targetsEU ls.
Proof.
  unfold targetsEU. induction ls as [|l ls IH]; cbn [isEuTargeted].
  - split; [done|]. intros (l & p & e & Hin & _). by apply elem_of_nil in Hin.
  - destruct (has (langPart l) euLocales) eqn:Hhas.
    + split; [|done]. intros _.
      apply has_langPart_euLocales in Hhas as (p & e & Hp & He & Hs).
      exists l, p, e. split; [left|done].
    + rewrite IH. split.
      * intros (l' & p & e & Hin & Hrest). exists l', p, e. split; [by right|done].
      * intros (l' & p & e & Hin & Hp & He & Hs).
        apply elem_of_cons in Hin as [->|Hin]; [|by exists l', p, e].
        assert (has (langPart l) euLocales = true) as Htrue
          by (apply has_langPart_euLocales; eauto).
        congruence.
Qed.

(** C2. The policy the validator computes from a list of target locales
    has requiresGDPR = cookieConsentActive = true and dataResidency = EU
    exactly when some locale of the list has a language prefix (what
    precedes its '-') that is, ignoring case, in the fixed EU set; and it
    has both flags false and dataResidency = GLOBAL exactly when none
    has. *)
Theorem compliance_iff_eu_prefix (ls : list Locale) :
  (targetsEU ls
   <-> computeGeoCompliance ls
       = {| requiresGDPR := true; cookieConsentActive := true;
            dataResidency := EU |})
  /\ (~ targetsEU ls
      <-> computeGeoCompliance ls
          = {| requiresGDPR := false; cookieConsentActive := false;
               dataResidency := GLOBAL |}).
Proof.
  rewrite <- isEuTargeted_targetsEU. unfold computeGeoCompliance.
  destruct (isEuTargeted ls); split; split; try done; by intros [].
Qed.

Lemma compliance_iff_eu_prefix_witness :
  computeGeoCompliance ["en-US"; "IT-it"]
  = {| requiresGDPR := true; cookieConsentActive := true; dataResidency := EU |}.
Proof.
  apply (compliance_iff_eu_prefix ["en-US"; "IT-it"]).
  exists "IT-it", "IT", "it". split; [by right; left|]. split; [|split].
  - exists "-it". split; [done|]. split; [|right; eauto].
    cbn. rewrite !not_elem_of_cons. repeat split; try discriminate.
    apply not_elem_of_nil.
  - by vm_compute.
  - repeat constructor; right; left; by vm_compute.
Defined.

(** ** The two EU sets *)

(** C10. The validator's EU set has the four prefixes pl, se, fi and dk
    on top of the deployment hub's set.  A locale with one of these
    language prefixes makes the validator demand GDPR consent and EU data
    residency while the hub classifies it as non-EU; so when all target
    locales are pl-PL the policy says EU and the selected edge region is
    "iad1". *)
Theorem eu_sets_disagree :
  (forall p, p ∈ euLocales /\ p ∉ euPrefixes <-> p ∈ ["pl"; "se"; "fi"; "dk"])
  /\ (forall l, langPart l ∈ ["pl"; "se"; "fi"; "dk"] ->
        computeGeoCompliance [l]
        = {| requiresGDPR := true; cookieConsentActive := true;
             dataResidency := EU |}
        /\ isEuLocale l = false)
  /\ (forall n,
        computeGeoCompliance (replicate (S n) "pl-PL")
        = {| requiresGDPR := true; cookieConsentActive := true;
             dataResidency := EU |}
        /\ determineEdgeRegion (replicate (S n) "pl-PL") = "iad1").
Proof.
  split; [|split].
  - intros p. unfold euLocales, euPrefixes.
    rewrite !elem_of_list_to_set, !elem_of_cons, !elem_of_nil. split.
    + intros [Hin Hout].
      repeat (destruct Hin as [->|Hin]; [try (exfalso; apply Hout; tauto); tauto|]).
      done.
    + intros Hin.
      repeat (destruct Hin as [->|Hin];
              [split; [tauto | intros Hx; repeat (destruct Hx as [Hx|Hx]; [discriminate|]); done]|]).
      done.
  - intros l Hl. unfold computeGeoCompliance, isEuLocale. cbn [isEuTargeted].
    rewrite !elem_of_cons, elem_of_nil in Hl.
    repeat (destruct Hl as [->|Hl]; [by vm_compute|]). done.
  - intros n. split; [done|].
    rewrite determineEdgeRegion_cases.
    assert (euCount (replicate (S n) "pl-PL") = 0%nat
            /\ nonEuCount (replicate (S n) "pl-PL") = S n) as [-> ->]; [|done].
    unfold euCount, nonEuCount. induction n as [|n [IHe IHn]]; [done|].
    change (replicate (S (S n)) "pl-PL") with ("pl-PL" :: replicate (S n) "pl-PL").
    cbn [List.filter].
    change (isEuLocale "pl-PL") with false. cbn [negb length].
    by rewrite IHe, IHn.
Qed.

Lemma eu_sets_disagree_witness :
  computeGeoCompliance ["fi-FI"]
  = {| requiresGDPR := true; cookieConsentActive := true; dataResidency := EU |}
  /\ isEuLocale "fi-FI" = false.
Proof.
  destruct eu_sets_disagree as (_ & Hprefix & _).
  apply (Hprefix "fi-FI"). by vm_compute; repeat constructor.
Defined.

(** ** Input validation *)

Lemma length_check_lt (s : string) (n : nat) :
  negb (JS.truthy s) || (String.length (JS.trim s) <? S n)%nat = false
  <-> (S n <= trimmedLength s)%nat.
Proof.
  unfold trimmedLength. destruct s as [|c s]; [cbn; split; [done | lia]|].
  cbn [JS.truthy negb orb]. apply Nat.ltb_ge.
Qed.

Lemma length_check_zero (s : string) :
  negb (JS.truthy s) || (String.length (JS.trim s) =? 0)%nat = false
  <-> (0 < trimmedLength s)%nat.
Proof.
  unfold trimmedLength. destruct s as [|c s]; [cbn; split; [done | lia]|].
  cbn [JS.truthy negb orb]. rewrite Nat.eqb_neq. lia.
Qed.

Lemma isValidUrl_validUrl `{Platform} (url : string) :
  negb (isValidUrl url) = false <-> validUrl url.
Proof.
  unfold isValidUrl, validUrl. destruct url as [|c s]; cbn.
  - split; [done | by intros [? _]].
  - rewrite negb_false_iff. split; [done | by intros [_ ?]].
Qed.

Lemma validationErrors_nil `{Platform} (input : BriefInput) :
  validationErrors input = [] <-> five_checks trimmedLength input.
Proof.
  unfold five_checks, validationErrors.
  rewrite <- (length_check_lt (campaignId input)),
    <- (length_check_lt (coreMessage input)),
    <- (length_check_zero (brandName input)),
    <- !isValidUrl_validUrl.
  assert ((0 < length (targetLocales input))%nat
          <-> (length (targetLocales input) =? 0)%nat = false) as ->
    by (rewrite Nat.eqb_neq; lia).
  destruct (negb (JS.truthy (campaignId input)) || _),
    (negb (JS.truthy (brandName input)) || _),
    (negb (JS.truthy (coreMessage input)) || _),
    (length (targetLocales input) =? 0)%nat,
    (negb (isValidUrl (logoUrl (assets input)))),
    (negb (isValidUrl (keywordsCsvUrl (assets input))));
    cbn; (split; [try discriminate; try tauto | try tauto; intuition discriminate]).
Qed.

Lemma validateInput_returns `{Platform} (input : BriefInput) (w : World) :
  exists project w',
    validateInput input w = (Returned project, w')
    /\ status project
       = (if (0 <? length (validationErrors input))%nat then FAILED else VALIDATED)
    /\ payload project = input
    /\ compliance project = computeGeoCompliance (targetLocales input)
    /\ calls w' = calls w ++ [CallValidate].
Proof. unfold validateInput, bind, journal, clock, ret. cbn. eauto 10. Qed.

(** C5, as the specification words it (lengths of the fields as given),
    fails on a campaign identifier that is long enough only with its
    white space: the five checks pass and the status is FAILED. *)
Lemma validation_by_plain_length_fails :
  ~ @validation_decides example_platform String.length padded_brief example_world.
Proof.
  intros (project & w' & Hrun & Hfailed & _).
  vm_compute in Hrun. injection Hrun as <- _.
  cbn [status] in Hfailed. destruct Hfailed as [Hfailed _].
  apply Hfailed; [done|]. unfold five_checks, validUrl. cbn.
  repeat split; try lia; discriminate.
Qed.

(** C5, amended. For every brief, [validateInput] returns a project and
    does not throw; the status is FAILED if and only if at least one of
    the five checks fails, and VALIDATED otherwise, where the campaign
    identifier (at least 3), the brand name (non-empty) and the core
    message (at least 10) are measured after trimming leading and
    trailing white space. *)
Theorem validation_decides_by_trimmed_length `{Platform}
    (input : BriefInput) (w : World) :
  validation_decides trimmedLength input w.
Proof.
  destruct (validateInput_returns input w) as (p & w' & Hrun & Hst & _).
  exists p, w'. split; [done|]. rewrite Hst, <- validationErrors_nil.
  destruct (validationErrors input); cbn; split; split; done.
Qed.

(** ** Joining concurrent tasks *)

Lemma map_fmap {A B} (f : A -> B) (l : list A) : map f l = f <$> l.
Proof. induction l as [|a l IH]; cbn; [done | by rewrite IH]. Qed.

Section Join.
Context {A : Type}.
Implicit Types (tasks : list (Task A)) (order : list nat).

Lemma settle_slot_length tasks slots i :
  length (settle_slot tasks slots i) = length slots.
Proof. unfold settle_slot. destruct (tasks !! i); [apply length_insert | done]. Qed.

(** After the tasks of [order] have settled, slot [j] holds the result of
    task [j] if [j] is among them and is untouched otherwise. *)
Lemma settle_fold_lookup tasks order slots (j : nat) :
  length slots = length tasks ->
  foldl (settle_slot tasks) slots order !! j
  = if decide (j ∈ order) then (fun t => Some (outcome t)) <$> tasks !! j
    else slots !! j.
Proof.
  revert slots. induction order as [|i order IH]; intros slots Hlen; cbn [foldl].
  { by rewrite decide_False by apply not_elem_of_nil. }
  rewrite IH by (by rewrite settle_slot_length).
  destruct (decide (j ∈ order)) as [Hin|Hnin].
  { by rewrite decide_True by (by right). }
  unfold settle_slot. destruct (decide (i = j)) as [->|Hne].
  - rewrite decide_True by left.
    destruct (tasks !! j) as [t|] eqn:Ht; cbn.
    + apply list_lookup_insert_eq. rewrite Hlen. by eapply lookup_lt_Some.
    + apply lookup_ge_None. rewrite Hlen. by apply lookup_ge_None.
  - rewrite decide_False by (rewrite elem_of_cons; intuition congruence).
    destruct (tasks !! i); [by apply list_lookup_insert_ne | done].
Qed.

Lemma settle_slots_complete tasks order :
  order ≡ₚ seq 0 (length tasks) ->
  settle_slots tasks order = (fun t => Some (outcome t)) <$> tasks.
Proof.
  intros Hperm. apply list_eq. intros j. unfold settle_slots.
  rewrite settle_fold_lookup by apply length_replicate.
  rewrite list_lookup_fmap.
  destruct (decide (j ∈ order)) as [Hin|Hnin]; [done|].
  assert (length tasks <= j)%nat as Hge.
  { destruct (Nat.le_gt_cases (length tasks) j) as [|Hlt]; [done|].
    exfalso. apply Hnin. rewrite Hperm. apply elem_of_seq. lia. }
  rewrite (proj1 (lookup_replicate_None _ _ _) Hge).
  by rewrite (proj2 (lookup_ge_None tasks j) Hge).
Qed.

Lemma all_filled_Some {B C} (f : B -> C) (l : list B) :
  all_filled ((fun t => Some (f t)) <$> l) = Some (map f l).
Proof. induction l as [|b l IH]; cbn; [done|]. by rewrite IH. Qed.

Lemma completion_order_perm tasks :
  completion_order tasks ≡ₚ seq 0 (length tasks).
Proof.
  unfold completion_order.
  rewrite (Permutation_map snd (merge_sort_Permutation sooner _)).
  rewrite !map_fmap. rewrite snd_zip; [done|].
  by rewrite length_fmap, length_seq.
Qed.

(** Whatever the order in which the tasks settle, [Promise.allSettled]
    resolves with their results in the order of the input array, once
    the slowest has settled. *)
Lemma allSettled_in_returns tasks order (w : World) :
  order ≡ₚ seq 0 (length tasks) ->
  allSettled_in order tasks w
  = (Returned (map outcome tasks), (sleep (max_delay tasks) w).2).
Proof.
  intros Hperm. unfold allSettled_in.
  by rewrite (settle_slots_complete _ _ Hperm), all_filled_Some.
Qed.

Lemma allSettled_returns tasks (w : World) :
  allSettled tasks w
  = (Returned (map outcome tasks), (sleep (max_delay tasks) w).2).
Proof. apply allSettled_in_returns, completion_order_perm. Qed.

End Join.

(** ** Fault-tolerant generation *)

Lemma collect_fold (results : list (Settled UIContentVariant))
    (acc : list UIContentVariant * list string) :
  foldl collect acc results
  = (acc.1 ++ omap fulfilled_value results,
     acc.2 ++ omap rejection_message results).
Proof.
  revert acc. induction results as [|r results IH]; intros [vs es]; cbn [foldl].
  - cbn. by rewrite !app_nil_r.
  - rewrite IH. destruct r; cbn; by rewrite <- !app_assoc.
Qed.

Lemma launched_length gen project w :
  length (launched gen project w) = length (targetLocales (payload project)).
Proof.
  unfold launched, variantPromises.
  rewrite length_zip_with_l_eq; [done|]. by rewrite length_map, length_seq.
Qed.

Lemma outcome_counts {A} (tasks : list (Task A)) :
  length (omap fulfilled_value (map outcome tasks))
  = (length tasks - length (List.filter failed tasks))%nat
  /\ length (omap rejection_message (map outcome tasks))
     = length (List.filter failed tasks)
  /\ (length (List.filter failed tasks) <= length tasks)%nat.
Proof.
  induction tasks as [|t tasks (IHv & IHe & IHle)]; [done|].
  unfold omap in *. destruct t as [d [v|e]]; simpl; rewrite ?IHv, ?IHe; lia.
Qed.

Lemma generateCreatives_returns gen project w :
  status project = VALIDATED ->
  exists out w',
    generateCreatives gen project w = (Returned out, w')
    /\ variants out = omap fulfilled_value (map outcome (launched gen project w))
    /\ failureMessages out
       = omap rejection_message (map outcome (launched gen project w))
    /\ ceo_projectId out = projectId project
    /\ calls w' = calls w ++ [CallGenerate; CallPersist].
Proof.
  intros Hst. unfold generateCreatives. rewrite Hst.
  unfold bind at 1. cbn [journal].
  unfold bind at 1. cbn [draws drawn rand].
  unfold bind at 1. rewrite allSettled_returns, collect_fold.
  cbn [fst snd app]. unfold stubPersistenceLayer, bind, journal, sleep, ret.
  cbn [now rand drawn calls snd].
  eexists _, _. split; [reflexivity|].
  cbn [variants ceo_projectId calls]. unfold failureMessages. cbn [errors].
  split; [done|]. split; [|split; [done|]].
  - by destruct (omap rejection_message _).
  - by rewrite <- app_assoc.
Qed.

(** C4. For every project with status VALIDATED and N target locales,
    generation returns an outcome; if K of the N generation tasks fail,
    it holds exactly N - K variants and exactly K failure messages, so
    successes plus failures equal the number of target locales. *)
Theorem successes_plus_failures gen project w :
  status project = VALIDATED ->
  exists out w',
    generateCreatives gen project w = (Returned out, w')
    /\ length (variants out)
       = (length (targetLocales (payload project)) - failureCount gen project w)%nat
    /\ length (failureMessages out) = failureCount gen project w
    /\ (length (variants out) + length (failureMessages out))%nat
       = length (targetLocales (payload project)).
Proof.
  intros Hst.
  destruct (generateCreatives_returns gen project w Hst)
    as (out & w' & Hrun & Hvs & Hes & _).
  exists out, w'. split; [done|]. rewrite Hvs, Hes. unfold failureCount.
  destruct (outcome_counts (launched gen project w)) as (-> & -> & Hle).
  rewrite launched_length in *. lia.
Qed.

Lemma successes_plus_failures_witness :
  exists out w',
    generateCreatives failing_provider scenario_project example_world
      = (Returned out, w')
    /\ length (variants out) = 8%nat
    /\ length (failureMessages out) = 2%nat.
Proof.
  destruct (successes_plus_failures failing_provider scenario_project
              example_world eq_refl) as (out & w' & Hrun & Hvs & Hes & _).
  exists out, w'. split; [exact Hrun|]. split; [exact Hvs | exact Hes].
Defined.

(** ** Result order *)

Lemma omap_map {A B C} (f : B -> option C) (g : A -> B) (l : list A) :
  omap f (map g l) = omap (fun a => f (g a)) l.
Proof.
  unfold omap. induction l as [|a l IH]; [done|]. cbn. by rewrite IH.
Qed.

Lemma succeeded_in_order (g : Locale -> N -> Task UIContentVariant)
    (ls : list Locale) (rs : list N) :
  (forall l r v, outcome (g l r) = Fulfilled v -> locale v = l) ->
  map locale (omap fulfilled_value (map outcome (zip_with g ls rs)))
  = omap (fun lt => if failed lt.2 then None else Some lt.1)
         (zip ls (zip_with g ls rs)).
Proof.
  intros Hg. revert rs. induction ls as [|l ls IH]; intros [|r rs]; try done.
  cbn [zip_with map]. unfold omap in *. cbn [list_omap fst snd].
  specialize (IH rs). unfold failed at 1.
  destruct (outcome (g l r)) as [v|e] eqn:Ho; cbn [fulfilled_value map].
  - by rewrite (Hg _ _ _ Ho), IH.
  - exact IH.
Qed.

Lemma succeeded_sublist {A} (ls : list Locale) (ts : list (Task A)) :
  omap (fun lt => if failed lt.2 then None else Some lt.1) (zip ls ts)
    `sublist_of` ls.
Proof.
  revert ts. induction ls as [|l ls IH]; intros [|t ts];
    try apply sublist_nil_l.
  cbn [zip zip_with]. unfold omap in *. cbn [list_omap fst snd].
  destruct (failed t); [apply sublist_cons | apply sublist_skip]; apply IH.
Qed.

(** C9. For every project with status VALIDATED, the join of the
    generation tasks yields their results in submission order whatever the
    order in which they settle, and the variants of the returned outcome
    are the values of the fulfilled tasks in that order; with a provider
    that tags each variant with its locale, the locales of the variants
    are the target locales whose task succeeded, in the order of the
    target-locale list. *)
Theorem variants_follow_submission_order gen project w :
  status project = VALIDATED ->
  (forall order w0,
      order ≡ₚ seq 0 (length (launched gen project w)) ->
      allSettled_in order (launched gen project w) w0
      = allSettled (launched gen project w) w0)
  /\ exists out w',
      generateCreatives gen project w = (Returned out, w')
      /\ variants out
         = omap (fun t => fulfilled_value (outcome t)) (launched gen project w)
      /\ (respects_locale gen ->
          map locale (variants out) = succeededLocales gen project w
          /\ map locale (variants out)
               `sublist_of` targetLocales (payload project)).
Proof.
  intros Hst. split.
  { intros order w0 Hperm.
    by rewrite allSettled_returns, (allSettled_in_returns _ _ _ Hperm). }
  destruct (generateCreatives_returns gen project w Hst)
    as (out & w' & Hrun & Hvs & _).
  exists out, w'. split; [done|]. rewrite Hvs. split.
  { apply omap_map. }
  intros Hgen.
  assert (map locale (omap fulfilled_value (map outcome (launched gen project w)))
          = succeededLocales gen project w) as ->.
  { unfold succeededLocales, launched, variantPromises.
    apply succeeded_in_order. intros l r v. apply Hgen. }
  split; [done | apply succeeded_sublist].
Qed.

Lemma variants_follow_submission_order_witness :
  exists out w',
    generateCreatives failing_provider scenario_project example_world
      = (Returned out, w')
    /\ map locale (variants out)
       = ["en-US"; "it-IT"; "fr-FR"; "es-ES"; "pt-PT"; "nl-NL"; "pl-PL"; "se-SE"].
Proof.
  destruct (variants_follow_submission_order failing_provider scenario_project
              example_world eq_refl) as (_ & out & w' & Hrun & _ & Hloc).
  exists out, w'. split; [exact Hrun|].
  refine (proj1 (Hloc _)). intros msg l r v. unfold failing_provider.
  destruct (bool_decide (l = "de-DE") || bool_decide (l = "ja-JP"));
    cbn [outcome]; intros Ho; inversion Ho; reflexivity.
Defined.

(** ** Sequencing of the stages *)

Section Journal.

Lemma extends_ret {A} (a : A) : extends_journal (ret a).
Proof. intros w r w' [= <- <-]. exists []. by rewrite app_nil_r. Qed.

Lemma extends_throw {A} (e : Thrown) : extends_journal (throw (A:=A) e).
Proof. intros w r w' [= <- <-]. exists []. by rewrite app_nil_r. Qed.

Lemma extends_stall {A} : extends_journal (stall (A:=A)).
Proof. intros w r w' [= <- <-]. exists []. by rewrite app_nil_r. Qed.

Lemma extends_sleep (ms : N) : extends_journal (sleep ms).
Proof. intros w r w' [= <- <-]. exists []. cbn. by rewrite app_nil_r. Qed.

Lemma extends_event (e : Event) : extends_journal (journal e).
Proof. intros w r w' [= <- <-]. by exists [e]. Qed.

Lemma extends_bind {A B} (m : M A) (k : A -> M B) :
  extends_journal m -> (forall a, extends_journal (k a)) ->
  extends_journal (bind m k).
Proof.
  intros Hm Hk w r w' Hrun. unfold bind in Hrun.
  destruct (m w) as [[a|e|] w1] eqn:Hmw;
    destruct (Hm _ _ _ Hmw) as [evs1 Hevs1].
  - destruct (Hk a _ _ _ Hrun) as [evs2 Hevs2].
    exists (evs1 ++ evs2). by rewrite Hevs2, Hevs1, app_assoc.
  - injection Hrun as <- <-. eauto.
  - injection Hrun as <- <-. eauto.
Qed.

Lemma extends_promiseAll {A} (tasks : list (Task A)) :
  extends_journal (promiseAll tasks).
Proof.
  unfold promiseAll. destruct (all_filled _).
  - apply extends_bind; [apply extends_sleep | intros _; apply extends_ret].
  - destruct (omap _ _) as [|[d e] _]; [apply extends_stall|].
    apply extends_bind; [apply extends_sleep | intros _; apply extends_throw].
Qed.

Lemma extends_optimizeAll (vs : list UIContentVariant) :
  extends_journal (optimizeAll vs).
Proof.
  unfold optimizeAll. apply extends_bind; [|intros _; apply extends_promiseAll].
  induction vs as [|v vs IH]; cbn [foldr]; [apply extends_ret|].
  apply extends_bind; [apply extends_event | by intros _].
Qed.

Lemma extends_executeGeoDeploy vs policy :
  extends_journal (executeGeoDeploy vs policy).
Proof.
  destruct vs as [|v vs].
  - unfold executeGeoDeploy. cbn [length Nat.eqb].
    apply extends_bind; [apply extends_event | intros _; apply extends_throw].
  - intros w r w' Hrun.
    destruct (executeGeoDeploy_returns (v :: vs) policy w ltac:(done))
      as (cfg & w1 & Hret & _ & _ & _ & rest & Hcalls).
    rewrite Hret in Hrun. injection Hrun as <- <-. eauto.
Qed.

Lemma extends_after_generation `{Platform} project out :
  extends_journal (after_generation project out).
Proof.
  apply extends_bind; [apply extends_optimizeAll|].
  intros vs. apply extends_executeGeoDeploy.
Qed.

End Journal.

(** C6. Validation of a brief returns a project.  When its status is
    FAILED, [runPipeline] throws the pipeline-halt error in the world
    validation left, whose journal has gained the validation call and
    nothing else: generation, optimization and deployment are not
    entered.  When its status is VALIDATED, the pipeline enters generation
    on that project, generation returns, and the run continues with
    optimization and deployment from there. *)
Theorem pipeline_halts_on_failed_validation `{Platform}
    (gen : Provider) (brief : BriefInput) (w : World) :
  exists project w1,
    validateInput brief w = (Returned project, w1)
    /\ calls w1 = calls w ++ [CallValidate]
    /\ (status project = FAILED ->
        runPipeline gen brief w
        = (Threw (JsError "Pipeline Halted: Input validation failed."), w1))
    /\ (status project = VALIDATED ->
        exists out w2 r w',
          generateCreatives gen project w1 = (Returned out, w2)
          /\ after_generation project out w2 = (r, w')
          /\ runPipeline gen brief w = (r, w')
          /\ exists rest,
               calls w' = calls w ++ CallValidate :: CallGenerate :: rest).
Proof.
  destruct (validateInput_returns brief w) as (p & w1 & Hval & _ & _ & _ & Hc1).
  exists p, w1. split; [done|]. split; [done|].
  assert (runPipeline gen brief w
          = match status p with
            | FAILED => throw (JsError "Pipeline Halted: Input validation failed.") w1
            | VALIDATED =>
                bind (generateCreatives gen p) (after_generation p) w1
            end) as Hpipe.
  { unfold runPipeline. unfold bind at 1. rewrite Hval. by destruct (status p). }
  rewrite Hpipe. split.
  - by intros ->.
  - intros Hst. rewrite Hst.
    destruct (generateCreatives_returns gen p w1 Hst)
      as (out & w2 & Hgen & _ & _ & _ & Hc2).
    destruct (after_generation p out w2) as [r w'] eqn:Hrest.
    exists out, w2, r, w'. split; [done|]. split; [done|].
    split; [unfold bind at 1; by rewrite Hgen|].
    destruct (extends_after_generation p out _ _ _ Hrest) as [evs Hc3].
    exists (CallPersist :: evs). rewrite Hc3, Hc2, Hc1.
    by rewrite <- !app_assoc.
Qed.

Lemma pipeline_halts_on_failed_validation_witness :
  exists project w1,
    @validateInput example_platform short_brief example_world
      = (Returned project, w1)
    /\ @runPipeline example_platform (@stubAIGeneration example_platform)
         short_brief example_world
       = (Threw (JsError "Pipeline Halted: Input validation failed."), w1)
    /\ calls w1 = [CallValidate].
Proof.
  destruct (@pipeline_halts_on_failed_validation example_platform
              (@stubAIGeneration example_platform) short_brief example_world)
    as (p & w1 & Hval & Hcalls & Hfailed & _).
  exists p, w1. split; [exact Hval|]. split; [|exact Hcalls].
  apply Hfailed. vm_compute in Hval. injection Hval as <- _. reflexivity.
Defined.

(** ** The joins always settle *)

Lemma all_filled_None {A B} (f : A -> option B) (l : list A) :
  all_filled (map f l) = None -> exists a, a ∈ l /\ f a = None.
Proof.
  induction l as [|a l IH]; [done|]. cbn [map all_filled].
  destruct (f a) as [b|] eqn:Hfa; [|intros _; exists a; split; [left | done]].
  destruct (all_filled (map f l)); [done|]. intros _.
  destruct IH as (a' & Hin & Ha'); [done|]. exists a'. split; [by right | done].
Qed.

(** [Promise.all] over started tasks resolves or rejects; it never hangs. *)
Lemma promiseAll_settles {A} (tasks : list (Task A)) (w : World) :
  (promiseAll tasks w).1 <> Stalled.
Proof.
  unfold promiseAll.
  destruct (all_filled _) as [values|] eqn:Hall; [done|].
  apply all_filled_None in Hall as (t & Hin & Hrej).
  apply list_elem_of_lookup in Hin as [i Hi].
  assert (exists e, rejection t = Some (delay t, e)) as [e He].
  { unfold rejection. destruct (outcome t); [done | eauto]. }
  assert ((delay t, e) ∈ omap (fun i => t ← tasks !! i; rejection t)
                              (completion_order tasks)) as Hfirst.
  { apply list_elem_of_omap. exists i. split.
    - rewrite completion_order_perm. apply elem_of_seq.
      apply lookup_lt_Some in Hi. lia.
    - by rewrite Hi. }
  destruct (omap _ _) as [|[d e'] rest]; [by apply elem_of_nil in Hfirst | done].
Qed.

(** ** The scenarios of the integration harness, run on the model *)

(** Locales en-US, it-IT, de-DE: consent required, region fra1, live. *)
Example integration_scenario :
  exists cfg w',
    @runPipeline example_platform (@stubAIGeneration example_platform)
      example_brief example_world = (Returned cfg, w')
    /\ consentRequired (middlewareRules cfg) = true
    /\ edgeRegion cfg = "fra1"
    /\ isLive cfg = true
    /\ String.prefix "dpl_" (deploymentId cfg) = true.
Proof. eexists _, _. split; [by vm_compute | by vm_compute]. Qed.

(** Ten locales, two failing tasks: eight pages are optimized and the
    deployment goes live. *)
Example partial_failure_scenario :
  exists cfg w',
    @runPipeline example_platform failing_provider scenario_brief example_world
      = (Returned cfg, w')
    /\ isLive cfg = true
    /\ length (List.filter (fun e => match e with CallOptimize _ => true
                                             | _ => false end) (calls w'))
       = 8%nat.
Proof. eexists _, _. split; [by vm_compute | by vm_compute]. Qed.

(** All target locales pl-PL: the policy asks for consent, the region is
    the North-American one. *)
Example polish_campaign_scenario :
  exists cfg w',
    @runPipeline example_platform (@stubAIGeneration example_platform)
      {| campaignId := "pl-campaign"; brandName := "TestBrand";
         coreMessage := "Resilience is key to distributed systems.";
         targetLocales := ["pl-PL"; "pl-PL"];
         assets := assets example_brief |} example_world
      = (Returned cfg, w')
    /\ consentRequired (middlewareRules cfg) = true
    /\ edgeRegion cfg = "iad1".
Proof. eexists _, _. split; [by vm_compute | by vm_compute]. Qed.

(** * Further properties of the stages *)

(** ** Stage preconditions *)

(** X1. Generation invoked on a project whose status is FAILED throws
    the invariant-violation error before anything else happens: whatever
    the provider, no task is started (no draw is consumed), no time passes
    and the persistence stub is not called. *)
Theorem generation_rejects_unvalidated (gen : Provider)
    (project : ValidatedProject) (w : World) :
  status project = FAILED ->
  exists w',
    generateCreatives gen project w
    = (Threw (JsError "[CreativeAIEngine] Invariant Violation: Cannot process project with status FAILED"),
       w')
    /\ evolved w w' 0 0 [CallGenerate].
Proof.
  intros Hst. unfold generateCreatives, bind, journal, throw. rewrite Hst.
  eexists. split; [reflexivity|]. unfold evolved. cbn [now rand drawn calls].
  repeat split; lia.
Qed.

Lemma generation_rejects_unvalidated_witness :
  exists w',
    generateCreatives failing_provider
      {| projectId := "sc2-drift-check"; timestamp := "ms:loyw3v28";
         status := FAILED; payload := short_brief;
         compliance := computeGeoCompliance ["fr-FR"] |} example_world
    = (Threw (JsError "[CreativeAIEngine] Invariant Violation: Cannot process project with status FAILED"),
       w')
    /\ evolved example_world w' 0 0 [CallGenerate].
Proof.
  exact (generation_rejects_unvalidated failing_provider
           {| projectId := "sc2-drift-check"; timestamp := "ms:loyw3v28";
              status := FAILED; payload := short_brief;
              compliance := computeGeoCompliance ["fr-FR"] |}
           example_world eq_refl).
Defined.

(** X2. Deployment returns a configuration exactly when it is given at
    least one variant.  On the empty list it throws its invariant-violation
    error having called neither the deployment provider nor the telemetry
    provisioner, and with no time passed. *)
Theorem deployment_needs_a_variant (vs : list SEOOptimizedVariant)
    (policy : GeoCompliance) (w : World) :
  ((exists cfg w', executeGeoDeploy vs policy w = (Returned cfg, w')) <-> vs <> [])
  /\ exists w',
       executeGeoDeploy [] policy w = (Threw deployError, w')
       /\ evolved w w' 0 0 [CallDeploy].
Proof.
  split.
  - split; [|intros Hne].
    + intros (cfg & w' & Hrun) ->. discriminate Hrun.
    + destruct (executeGeoDeploy_returns vs policy w Hne) as (cfg & w' & Hrun & _).
      eauto.
  - eexists. split; [reflexivity|]. unfold evolved. cbn [now rand drawn calls].
    repeat split; lia.
Qed.

(** X3. [optimizeSEO] on a variant whose locale or headline is empty
    throws the invariant-violation error that names the locale, at once:
    the keyword lookup is not awaited.  On any other variant it returns,
    20 ms later, a page that carries the variant unchanged. *)
Theorem optimizeSEO_checks_its_input (variant : UIContentVariant) (w : World) :
  (validVariant variant = false ->
   exists w', optimizeSEO variant w = (Threw (seoError variant), w')
              /\ evolved w w' 0 0 [CallOptimize (locale variant)])
  /\ (validVariant variant = true ->
      exists o w', optimizeSEO variant w = (Returned o, w')
                   /\ content o = variant
                   /\ evolved w w' 20 0 [CallOptimize (locale variant)]).
Proof.
  unfold validVariant, optimizeSEO, optimizeSEO_task, await, bind, journal,
    sleep, throw, ret, seoError, evolved.
  split; intros Hv.
  - assert (negb (JS.truthy (locale variant)) || negb (JS.truthy (heroTitle variant))
            = true) as ->
      by (destruct (JS.truthy (locale variant)), (JS.truthy (heroTitle variant));
          done).
    cbn [delay outcome now rand drawn calls].
    eexists. split; [reflexivity|]. cbn [now rand drawn calls].
    repeat split; lia.
  - apply andb_true_iff in Hv as [-> ->]. cbn [negb orb delay outcome].
    eexists _, _. split; [reflexivity|]. cbn [content now rand drawn calls].
    repeat split. lia.
Qed.

Lemma optimizeSEO_checks_its_input_witness :
  exists w',
    optimizeSEO {| locale := "fr-FR"; heroTitle := EmptyString; bodyCopy := "Oui";
                   ctaText := "Allez"; layoutId := "std" |} example_world
    = (Threw (JsError "[SeoSemanticAgent] Invariant Violation: Invalid input variant for locale fr-FR"),
       w')
    /\ evolved example_world w' 0 0 [CallOptimize "fr-FR"].
Proof.
  exact (proj1 (optimizeSEO_checks_its_input
                  {| locale := "fr-FR"; heroTitle := EmptyString; bodyCopy := "Oui";
                     ctaText := "Allez"; layoutId := "std" |} example_world)
               eq_refl).
Defined.

Lemma deployment_needs_a_variant_witness :
  exists cfg w',
    executeGeoDeploy [optimizedValue {| locale := "fr-FR"; heroTitle := "Bonjeur";
                                        bodyCopy := "Oui"; ctaText := "Allez";
                                        layoutId := "std" |}]
      (computeGeoCompliance ["fr-FR"]) example_world
    = (Returned cfg, w').
Proof.
  apply (proj1 (deployment_needs_a_variant
                  [optimizedValue {| locale := "fr-FR"; heroTitle := "Bonjeur";
                                     bodyCopy := "Oui"; ctaText := "Allez";
                                     layoutId := "std" |}]
                  (computeGeoCompliance ["fr-FR"]) example_world)).
  discriminate.
Defined.

(** ** SEO metadata *)

Lemma truncate_length (text : string) (limit : nat) :
  (String.length (truncate text limit) <= Nat.max limit 3)%nat.
Proof.
  unfold truncate. destruct (Nat.leb_spec (String.length text) limit); [lia|].
  rewrite substring_from_0, length_append, length_substring_0. cbn. lia.
Qed.

(** X4. Whatever the variant and the keyword, the generated title has at
    most 60 characters and the generated description at most 160.  In
    general [truncate] keeps a text within its limit as long as the limit
    is at least 3, the length of the ellipsis; under a smaller limit a
    text that is too long becomes the 3-character ellipsis. *)
Theorem metadata_within_limits (variant : UIContentVariant) (keyword : string) :
  (String.length (title (generateMetadata variant keyword)) <= 60)%nat
  /\ (String.length (description (generateMetadata variant keyword)) <= 160)%nat
  /\ (forall text limit,
        (String.length (truncate text limit) <= Nat.max limit 3)%nat)
  /\ (forall text limit,
        (limit < 3)%nat -> (limit < String.length text)%nat ->
        truncate text limit = "...").
Proof.
  split; [|split; [|split]].
  - apply (truncate_length _ 60).
  - apply (truncate_length _ 160).
  - apply truncate_length.
  - intros text limit H3 Hlong. unfold truncate.
    destruct (Nat.leb_spec (String.length text) limit); [lia|].
    rewrite substring_from_0.
    replace (limit - 3)%nat with 0%nat by lia. by destruct text.
Qed.

Lemma metadata_within_limits_witness : truncate "abcdef" 2 = "...".
Proof.
  apply (proj2 (proj2 (proj2 (metadata_within_limits
           {| locale := "fr-FR"; heroTitle := "Bonjeur"; bodyCopy := "Oui";
              ctaText := "Allez"; layoutId := "std" |} "Brand"))));
    cbn; lia.
Defined.

(** X5. A page optimized for a locale of the reference set lists itself
    among its hreflang alternates, under its canonical URL; a page in any
    other locale has no hreflang entry for its own locale. *)
Theorem hreflang_self_reference (variant : UIContentVariant) (w : World) :
  validVariant variant = true ->
  exists o w',
    optimizeSEO variant w = (Returned o, w')
    /\ (locale variant ∈ supportedLocales ->
        hreflang (seo o) !! locale variant = Some (canonicalUrl (seo o)))
    /\ (locale variant ∉ supportedLocales ->
        hreflang (seo o) !! locale variant = None).
Proof.
  intros Hv. apply andb_true_iff in Hv as [Hl Ht].
  destruct (optimizeSEO_valid variant w Hl Ht) as (o & w' & Hrun & _ & Hseo).
  exists o, w'. split; [done|]. rewrite Hseo. unfold generateMetadata.
  cbn [hreflang canonicalUrl]. rewrite generateHreflangMap_lookup.
  split; intros Hin; [by rewrite bool_decide_eq_true_2 | by rewrite bool_decide_eq_false_2].
Qed.

Lemma hreflang_self_reference_witness :
  exists o w',
    optimizeSEO {| locale := "pl-PL"; heroTitle := "[PL-PL] Future";
                   bodyCopy := "Body"; ctaText := "Go";
                   layoutId := "layout-minimal-v1" |} example_world
      = (Returned o, w')
    /\ hreflang (seo o) !! "pl-PL" = None.
Proof.
  destruct (hreflang_self_reference
              {| locale := "pl-PL"; heroTitle := "[PL-PL] Future";
                 bodyCopy := "Body"; ctaText := "Go";
                 layoutId := "layout-minimal-v1" |} example_world eq_refl)
    as (o & w' & Hrun & _ & Hnone).
  exists o, w'. split; [exact Hrun|]. apply Hnone.
  unfold supportedLocales. cbn [locale].
  rewrite !not_elem_of_cons. repeat split; try discriminate.
  apply not_elem_of_nil.
Defined.

Lemma append_cancel_r (s1 s2 t : string) : s1 +:+ t = s2 +:+ t -> s1 = s2.
Proof.
  revert s2. induction s1 as [|c s1 IH]; intros [|d s2] Heq.
  - done.
  - apply (f_equal String.length) in Heq.
    rewrite !length_append in Heq. cbn in Heq. lia.
  - apply (f_equal String.length) in Heq.
    rewrite !length_append in Heq. cbn in Heq. lia.
  - change (String c (s1 +:+ t) = String d (s2 +:+ t)) in Heq.
    injection Heq as -> Heq. f_equal. by apply IH.
Qed.

(** X6. The URL builder sends different locales to different URLs, so
    pages of different locales never share a canonical URL and the locale
    of a page can be read back from it. *)
Theorem url_builder_injective (l1 l2 : Locale) :
  stubUrlBuilder l1 = stubUrlBuilder l2 -> l1 = l2.
Proof.
  unfold stubUrlBuilder. intros Heq.
  apply (inj (String.append "https://microsite-factory.com/")) in Heq.
  by apply append_cancel_r in Heq.
Qed.

Lemma url_builder_injective_witness :
  stubUrlBuilder "it-IT" = stubUrlBuilder "it-IT" /\ "it-IT" = "it-IT".
Proof.
  split; [reflexivity|].
  exact (url_builder_injective "it-IT" "it-IT" eq_refl).
Defined.

(** X7. For a locale that does not name a member every object inherits,
    the keyword lookup yields a non-empty array whose first element, a
    non-empty string, is the primary keyword: the localized three keywords
    for a locale of the reference set and the single default keyword for
    any other.  The 'Brand' fallback is never used for such a locale. *)
Theorem keywords_for_locale (l : Locale) :
  l ∉ objectPrototypeMembers ->
  exists k ks,
    stubKeywordDatabase l = KwArray (k :: ks)
    /\ primaryKeyword (stubKeywordDatabase l) = k
    /\ k <> EmptyString
    /\ k <> "Brand"
    /\ (l ∈ supportedLocales -> length ks = 2%nat)
    /\ (l ∉ supportedLocales -> k = "Luxury Real Estate" /\ ks = []).
Proof.
  intros Hproto. unfold stubKeywordDatabase.
  destruct (decide (l ∈ supportedLocales)) as [Hin|Hout].
  - unfold supportedLocales in Hin. rewrite !elem_of_cons, elem_of_nil in Hin.
    repeat (destruct Hin as [->|Hin];
            [eexists _, _; split; [vm_compute; reflexivity|];
             split; [vm_compute; reflexivity|];
             split; [discriminate|]; split; [discriminate|];
             split; [reflexivity|];
             intros Hn; exfalso; apply Hn; repeat constructor|]).
    done.
  - assert ((list_to_map keywordMap : gmap string (list string)) !! l = None)
      as ->.
    { apply not_elem_of_list_to_map_1. intros Hin. apply Hout.
      unfold supportedLocales. exact Hin. }
    rewrite bool_decide_eq_false_2 by done.
    eexists _, _. cbn. repeat split; try discriminate; try done.
Qed.

Lemma keywords_for_locale_witness :
  exists k ks,
    stubKeywordDatabase "pl-PL" = KwArray (k :: ks)
    /\ primaryKeyword (stubKeywordDatabase "pl-PL") = k.
Proof.
  destruct (keywords_for_locale "pl-PL") as (k & ks & Hdb & Hk & _).
  - unfold objectPrototypeMembers. rewrite !not_elem_of_cons.
    repeat split; try discriminate. apply not_elem_of_nil.
  - exists k, ks. split; [exact Hdb | exact Hk].
Defined.

(** ** Compliance and region as functions of the locales *)

Lemma isEuTargeted_exists (ls : list Locale) :
  isEuTargeted ls = true <-> exists l, l ∈ ls /\ has (langPart l) euLocales = true.
Proof.
  induction ls as [|l ls IH]; cbn [isEuTargeted].
  - split; [done|]. intros (l & Hin & _). by apply elem_of_nil in Hin.
  - destruct (has (langPart l) euLocales) eqn:Hl.
    + split; [|done]. intros _. exists l. split; [left | done].
    + rewrite IH. split; intros (l' & Hin & Hl').
      * exists l'. split; [by right | done].
      * apply elem_of_cons in Hin as [->|Hin]; [congruence | eauto].
Qed.

(** X8. The compliance policy depends only on which locales are targeted,
    not on their order or multiplicity, and targeting more locales never
    lifts the GDPR requirement; the consent flag always equals the GDPR
    flag and the data residency is never US. *)
Theorem compliance_depends_on_locale_set (ls ls' : list Locale) :
  (ls ⊆ ls' ->
   requiresGDPR (computeGeoCompliance ls) = true ->
   requiresGDPR (computeGeoCompliance ls') = true)
  /\ ((forall l, l ∈ ls <-> l ∈ ls') ->
      computeGeoCompliance ls = computeGeoCompliance ls')
  /\ cookieConsentActive (computeGeoCompliance ls)
     = requiresGDPR (computeGeoCompliance ls)
  /\ dataResidency (computeGeoCompliance ls) <> US.
Proof.
  unfold computeGeoCompliance. cbn [requiresGDPR cookieConsentActive dataResidency].
  split; [|split; [|split]].
  - intros Hsub. rewrite !isEuTargeted_exists.
    intros (l & Hin & Hl). exists l. split; [by apply Hsub | done].
  - intros Hsame.
    assert (isEuTargeted ls = isEuTargeted ls') as ->; [|done].
    apply eq_true_iff_eq. rewrite !isEuTargeted_exists.
    split; intros (l & Hin & Hl); exists l; (split; [by apply Hsame | done]).
  - done.
  - by destruct (isEuTargeted ls).
Qed.

Lemma compliance_depends_on_locale_set_witness :
  computeGeoCompliance ["it-IT"; "en-US"]
  = computeGeoCompliance ["en-US"; "it-IT"; "en-US"].
Proof.
  apply (proj1 (proj2 (compliance_depends_on_locale_set
                         ["it-IT"; "en-US"] ["en-US"; "it-IT"; "en-US"]))).
  intros l. rewrite !elem_of_cons, !elem_of_nil. tauto.
Defined.

Lemma counts_permutation (ls ls' : list Locale) :
  ls ≡ₚ ls' -> euCount ls = euCount ls' /\ nonEuCount ls = nonEuCount ls'.
Proof.
  unfold euCount, nonEuCount.
  induction 1 as [|l ls ls' _ [IHe IHn]|l1 l2 ls|ls ls' ls'' _ [IHe IHn] _ [IHe' IHn']];
    cbn [List.filter].
  - done.
  - destruct (isEuLocale l); cbn; by rewrite IHe, IHn.
  - destruct (isEuLocale l1), (isEuLocale l2); done.
  - split; congruence.
Qed.

(** X9. Region selection counts locales, so it does not depend on the
    order of the variants, and it only ever answers one of the three
    identifiers "fra1", "iad1" and "global". *)
Theorem region_depends_on_counts (ls ls' : list Locale) :
  (ls ≡ₚ ls' -> determineEdgeRegion ls = determineEdgeRegion ls')
  /\ determineEdgeRegion ls ∈ ["fra1"; "iad1"; "global"].
Proof.
  rewrite !determineEdgeRegion_cases. split.
  - intros Hperm. by destruct (counts_permutation ls ls' Hperm) as [-> ->].
  - destruct (_ <? _)%nat; [by left|].
    destruct (_ <? _)%nat; [by right; left | by right; right; left].
Qed.

Lemma region_depends_on_counts_witness :
  determineEdgeRegion ["it-IT"; "en-US"; "de-DE"]
  = determineEdgeRegion ["en-US"; "de-DE"; "it-IT"].
Proof.
  apply (proj1 (region_depends_on_counts ["it-IT"; "en-US"; "de-DE"]
                  ["en-US"; "de-DE"; "it-IT"])).
  apply (Permutation_cons_append ["en-US"; "de-DE"] "it-IT").
Defined.

Lemma euPrefixes_euLocales (x : string) : x ∈ euPrefixes -> x ∈ euLocales.
Proof.
  unfold euPrefixes, euLocales.
  rewrite !elem_of_list_to_set, !elem_of_cons, !elem_of_nil. tauto.
Qed.

(** X10. The deployment hub classifies a locale as EU exactly when the
    part before its first '-' (all of it when there is none) is, ignoring
    case, one of the nine prefixes of the hub's set. *)
Theorem hub_classifies_by_prefix (l : Locale) :
  isEuLocale l = true
  <-> exists p e, languagePrefix l p /\ e ∈ euPrefixes /\ sameIgnoringCase p e.
Proof.
  assert (forall e, e ∈ euPrefixes -> lowercaseAZ e) as Hlow
    by (intros e He; by apply euLocales_lowercase, euPrefixes_euLocales).
  unfold isEuLocale, has, langPart. rewrite bool_decide_eq_true. split.
  - intros Hin. eexists _, _. split; [by apply split_first_prefix|].
    split; [exact Hin|]. apply toLowerCase_sameIgnoringCase; [by apply Hlow | done].
  - intros (p & e & Hp & He & Hs). apply split_first_prefix in Hp. rewrite Hp.
    apply toLowerCase_sameIgnoringCase in Hs; [by rewrite Hs | by apply Hlow].
Qed.

Lemma hub_classifies_by_prefix_witness : isEuLocale "DE-at" = true.
Proof.
  apply (proj2 (hub_classifies_by_prefix "DE-at")).
  exists "DE", "de". split; [|split].
  - exists "-at". split; [done|]. split; [|right; eauto].
    cbn. rewrite !not_elem_of_cons. repeat split; try discriminate.
    apply not_elem_of_nil.
  - by vm_compute.
  - repeat constructor; right; left; by vm_compute.
Defined.

Lemma euCount_positive (ls : list Locale) :
  (0 < euCount ls)%nat -> exists l, l ∈ ls /\ isEuLocale l = true.
Proof.
  unfold euCount. induction ls as [|l ls IH]; cbn [List.filter]; [cbn; lia|].
  destruct (isEuLocale l) eqn:Hl.
  - intros _. exists l. split; [left | done].
  - intros Hpos. destruct (IH Hpos) as (l' & Hin & Hl'). exists l'.
    split; [by right | done].
Qed.

(** X11. Whenever region selection answers the European region for a list
    of locales, the validator's policy for the same locales requires
    consent and EU data residency: every prefix of the hub's set is in the
    validator's set. *)
Theorem european_region_implies_consent (ls : list Locale) :
  determineEdgeRegion ls = "fra1" ->
  computeGeoCompliance ls
  = {| requiresGDPR := true; cookieConsentActive := true; dataResidency := EU |}.
Proof.
  rewrite determineEdgeRegion_cases.
  destruct (Nat.ltb_spec (nonEuCount ls) (euCount ls)) as [Hlt|_];
    [|destruct (_ <? _)%nat; discriminate].
  intros _. destruct (euCount_positive ls) as (l & Hin & Hl); [lia|].
  assert (isEuTargeted ls = true) as Heu.
  { apply isEuTargeted_exists. exists l. split; [done|].
    unfold isEuLocale, has in *. apply bool_decide_eq_true.
    apply bool_decide_eq_true in Hl. by apply euPrefixes_euLocales. }
  unfold computeGeoCompliance. by rewrite Heu.
Qed.

Lemma european_region_implies_consent_witness :
  computeGeoCompliance ["en-US"; "it-IT"; "de-DE"]
  = {| requiresGDPR := true; cookieConsentActive := true; dataResidency := EU |}.
Proof.
  apply (european_region_implies_consent ["en-US"; "it-IT"; "de-DE"]).
  by vm_compute.
Defined.

(** ** What generation reports *)

Lemma generateCreatives_output gen project w :
  status project = VALIDATED ->
  exists w',
    generateCreatives gen project w
    = (Returned
         {| ceo_projectId := projectId project;
            variants := omap fulfilled_value (map outcome (launched gen project w));
            generationModel := "gpt-4o-stub-v1";
            errors :=
              if (0 <? length (omap rejection_message
                                 (map outcome (launched gen project w))))%nat
              then Some (omap rejection_message
                           (map outcome (launched gen project w)))
              else None |}, w')
    /\ evolved w w' (max_delay (launched gen project w) + 200)
         (length (targetLocales (payload project))) [CallGenerate; CallPersist].
Proof.
  intros Hst. unfold generateCreatives. rewrite Hst.
  unfold bind at 1. cbn [journal].
  unfold bind at 1. cbn [draws drawn rand].
  unfold bind at 1. rewrite allSettled_returns, collect_fold.
  cbn [fst snd app]. unfold stubPersistenceLayer, bind, journal, sleep, ret.
  cbn [now rand drawn calls snd].
  eexists. split; [reflexivity|]. unfold evolved, launched.
  cbn [now rand drawn calls].
  split; [lia|]. split; [done|]. split; [done | by rewrite <- app_assoc].
Qed.



(** ** The optimization stage *)

Lemma optimizeSEO_task_cases (v : UIContentVariant) :
  optimizeSEO_task v
  = if validVariant v
    then {| delay := 20; outcome := Fulfilled (optimizedValue v) |}
    else {| delay := 0; outcome := Rejected (seoError v) |}.
Proof.
  unfold optimizeSEO_task, validVariant.
  by destruct (JS.truthy (locale v)), (JS.truthy (heroTitle v)).
Qed.

Lemma journal_each {A} (f : A -> Event) (l : list A) (w : World) :
  exists w',
    foldr (fun a k => journal (f a) ;;; k) (ret tt) l w = (Returned tt, w')
    /\ evolved w w' 0 0 (map f l).
Proof.
  revert w. induction l as [|a l IH]; intros w; cbn [foldr map].
  - exists w. split; [done|]. unfold evolved. rewrite app_nil_r.
    repeat split; lia.
  - unfold bind at 1. cbn [journal].
    destruct (IH {| now := now w; rand := rand w; drawn := drawn w;
                    calls := calls w ++ [f a] |}) as (w' & Hrun & Hn & Hr & Hd & Hc).
    exists w'. split; [exact Hrun|]. cbn [now rand drawn calls] in *.
    unfold evolved. rewrite Hc, <- app_assoc. by repeat split.
Qed.

Lemma all_filled_inv {A} (slots : list (option A)) (l : list A) :
  all_filled slots = Some l <-> slots = map Some l.
Proof.
  revert l. induction slots as [|[a|] slots IH]; intros l; cbn [all_filled].
  - split; [by intros [= <-] | by destruct l].
  - destruct (all_filled slots) as [l'|] eqn:Hl'.
    + split.
      * intros [= <-]. cbn. f_equal. by apply IH.
      * destruct l as [|a' l]; [done|]. intros [= -> Hs].
        apply IH in Hs. by injection Hs as ->.
    + split; [done|]. destruct l as [|a' l]; [done|]. intros [= -> Hs].
      by apply IH in Hs.
  - split; [done | by destruct l].
Qed.

Lemma promiseAll_fulfilled {A} (tasks : list (Task A)) (vs : list A) (w : World) :
  map outcome tasks = map Fulfilled vs ->
  promiseAll tasks w = (Returned vs, (sleep (max_delay tasks) w).2).
Proof.
  intros Hall. unfold promiseAll.
  assert (all_filled (map (fun t => fulfilled_value (outcome t)) tasks) = Some vs)
    as ->; [|done].
  apply all_filled_inv. revert vs Hall.
  induction tasks as [|t tasks IH]; intros [|v vs]; try done.
  cbn [map]. intros [= Ht Hts]. rewrite Ht. cbn. f_equal. by apply IH.
Qed.

Lemma promiseAll_rejected {A} (tasks : list (Task A)) (w : World) :
  (exists t, t ∈ tasks /\ failed t = true) ->
  exists t e,
    t ∈ tasks /\ outcome t = Rejected e
    /\ promiseAll tasks w = (Threw e, (sleep (delay t) w).2).
Proof.
  intros (t0 & Hin0 & Hfail0).
  pose proof (promiseAll_settles tasks w) as Hsettles.
  unfold promiseAll in *.
  destruct (all_filled _) as [values|] eqn:Hall.
  { apply all_filled_inv in Hall. exfalso.
    apply list_elem_of_lookup in Hin0 as [i Hi].
    apply (f_equal (fun l => l !! i)) in Hall.
    rewrite !map_fmap, !list_lookup_fmap, Hi in Hall. cbn in Hall.
    unfold failed in Hfail0. destruct (outcome t0); [done|].
    cbn in Hall. by destruct (values !! i). }
  destruct (omap _ _) as [|[d e] rest] eqn:Hrej; [done|].
  assert ((d, e) ∈ omap (fun i => t ← tasks !! i; rejection t)
                        (completion_order tasks)) as Hfirst
    by (rewrite Hrej; left).
  apply list_elem_of_omap in Hfirst as (i & _ & Hi).
  destruct (tasks !! i) as [t|] eqn:Hti; [|done]. cbn in Hi.
  unfold rejection in Hi. destruct (outcome t) as [|e'] eqn:Ho; [done|].
  injection Hi as <- <-. exists t, e'. split; [by eapply list_elem_of_lookup_2|].
  split; [done|]. done.
Qed.

Lemma max_delay_optimize (vs : list UIContentVariant) :
  Forall (fun v => validVariant v = true) vs ->
  max_delay (map optimizeSEO_task vs) = match vs with [] => 0 | _ => 20 end
  /\ map outcome (map optimizeSEO_task vs) = map Fulfilled (map optimizedValue vs).
Proof.
  induction 1 as [|v vs Hv _ [IHd IHo]]; [done|].
  cbn [map]. rewrite optimizeSEO_task_cases, Hv. cbn [outcome]. rewrite IHo.
  split; [|done]. unfold max_delay in *. cbn [map foldr delay]. rewrite IHd.
  by destruct vs.
Qed.

Lemma optimizeAll_valid (vs : list UIContentVariant) (w : World) :
  Forall (fun v => validVariant v = true) vs ->
  exists w',
    optimizeAll vs w = (Returned (map optimizedValue vs), w')
    /\ evolved w w' (match vs with [] => 0 | _ => 20 end) 0
         (map (fun v => CallOptimize (locale v)) vs).
Proof.
  unfold optimizeAll.
  destruct (journal_each (fun v => CallOptimize (locale v)) vs w)
    as (w1 & Hlog & Hn & Hr & Hd & Hc).
  intros Hvalid. destruct (max_delay_optimize vs Hvalid) as [Hmax Hout].
  unfold bind at 1. rewrite Hlog, (promiseAll_fulfilled _ _ _ Hout), Hmax.
  eexists. split; [reflexivity|]. unfold evolved, sleep.
  cbn [snd now rand drawn calls]. rewrite Hn, Hr, Hd, Hc.
  repeat split; lia.
Qed.

Lemma optimizeAll_invalid (vs : list UIContentVariant) (w : World) :
  Exists (fun v => validVariant v = false) vs ->
  exists v w',
    v ∈ vs /\ validVariant v = false
    /\ optimizeAll vs w = (Threw (seoError v), w')
    /\ evolved w w' 0 0 (map (fun v => CallOptimize (locale v)) vs).
Proof.
  unfold optimizeAll.
  destruct (journal_each (fun v => CallOptimize (locale v)) vs w)
    as (w1 & Hlog & Hn & Hr & Hd & Hc).
  intros Hbad. apply Exists_exists in Hbad as (v0 & Hin0 & Hv0).
  destruct (promiseAll_rejected (map optimizeSEO_task vs) w1)
    as (t & e & Hin & Ho & Hrun).
  { exists (optimizeSEO_task v0). split.
    - apply list_elem_of_In, in_map, list_elem_of_In, Hin0.
    - rewrite optimizeSEO_task_cases, Hv0. done. }
  apply list_elem_of_In, in_map_iff in Hin as (v & <- & Hin).
  rewrite optimizeSEO_task_cases in Ho, Hrun.
  destruct (validVariant v) eqn:Hv; [done|]. cbn [outcome delay] in *.
  injection Ho as <-. exists v. eexists. split; [by apply list_elem_of_In|].
  split; [done|]. unfold bind at 1. rewrite Hlog, Hrun.
  split; [reflexivity|]. unfold evolved, sleep.
  cbn [snd now rand drawn calls]. rewrite Hn, Hr, Hd, Hc.
  repeat split; lia.
Qed.

(** X13. The optimization stage is all-or-nothing.  When every variant has
    a locale and a headline it returns their pages in the order of the
    variants, 20 ms later (at once for no variant).  When some variant
    lacks one, the stage throws the invariant-violation error of such a
    variant at once and returns no page; every [optimizeSEO] call has been
    entered all the same. *)
Theorem optimization_all_or_nothing (vs : list UIContentVariant) (w : World) :
  (Forall (fun v => validVariant v = true) vs ->
   exists w',
     optimizeAll vs w = (Returned (map optimizedValue vs), w')
     /\ evolved w w' (match vs with [] => 0 | _ => 20 end) 0
          (map (fun v => CallOptimize (locale v)) vs))
  /\ (Exists (fun v => validVariant v = false) vs ->
      exists v w',
        v ∈ vs /\ validVariant v = false
        /\ optimizeAll vs w = (Threw (seoError v), w')
        /\ evolved w w' 0 0 (map (fun v => CallOptimize (locale v)) vs)).
Proof.
  split.
  - intros Hvalid.
    destruct (optimizeAll_valid vs w Hvalid) as (w' & Hrun & Hworld).
    exists w'. by split.
  - intros Hbad.
    destruct (optimizeAll_invalid vs w Hbad) as (v & w' & Hin & Hv & Hrun & Hworld).
    exists v, w'. split; [done|]. split; [done|]. by split.
Qed.

Lemma optimization_all_or_nothing_witness :
  exists v w',
    v ∈ [ {| locale := "fr-FR"; heroTitle := "Bonjeur"; bodyCopy := "Oui";
             ctaText := "Allez"; layoutId := "std" |};
          {| locale := "it-IT"; heroTitle := EmptyString; bodyCopy := "Si";
             ctaText := "Vai"; layoutId := "std" |} ]
    /\ validVariant v = false
    /\ optimizeAll
         [ {| locale := "fr-FR"; heroTitle := "Bonjeur"; bodyCopy := "Oui";
              ctaText := "Allez"; layoutId := "std" |};
           {| locale := "it-IT"; heroTitle := EmptyString; bodyCopy := "Si";
              ctaText := "Vai"; layoutId := "std" |} ] example_world
       = (Threw (seoError v), w').
Proof.
  destruct (proj2 (optimization_all_or_nothing
              [ {| locale := "fr-FR"; heroTitle := "Bonjeur"; bodyCopy := "Oui";
                   ctaText := "Allez"; layoutId := "std" |};
                {| locale := "it-IT"; heroTitle := EmptyString; bodyCopy := "Si";
                   ctaText := "Vai"; layoutId := "std" |} ] example_world))
    as (v & w' & Hin & Hv & Hrun & _).
  - apply Exists_cons_tl, Exists_cons_hd. reflexivity.
  - exists v, w'. split; [exact Hin|]. split; [exact Hv | exact Hrun].
Defined.

(** ** The pipeline end to end *)

Section Pipeline.
Context `{Platform}.

Lemma validateInput_evolved (input : BriefInput) (w : World) :
  exists w1,
    validateInput input w
    = (Returned {| projectId := campaignId input;
                   timestamp := toISOString (now w);
                   status := if (0 <? length (validationErrors input))%nat
                             then FAILED else VALIDATED;
                   payload := input;
                   compliance := computeGeoCompliance (targetLocales input) |},
       w1)
    /\ evolved w w1 0 0 [CallValidate].
Proof.
  unfold validateInput, bind, journal, clock, ret. cbn [now rand drawn calls].
  eexists. split; [reflexivity|]. unfold evolved. cbn [now rand drawn calls].
  repeat split; lia.
Qed.

Lemma status_of_checks (input : BriefInput) :
  (if (0 <? length (validationErrors input))%nat then FAILED else VALIDATED)
  = VALIDATED
  <-> five_checks trimmedLength input.
Proof.
  rewrite <- validationErrors_nil. by destruct (validationErrors input).
Qed.

(** What a run on a brief that passes validation comes to: the last two
    stages, on the variants of the succeeded tasks and the policy of the
    target locales, in the world generation leaves. *)
Lemma runPipeline_validated (gen : Provider) (brief : BriefInput) (w : World) :
  five_checks trimmedLength brief ->
  exists w2,
    runPipeline gen brief w
    = bind (optimizeAll (succeededVariants gen brief w))
        (fun seoVariants =>
           executeGeoDeploy seoVariants
             (computeGeoCompliance (targetLocales brief))) w2
    /\ evolved w w2 (max_delay (briefTasks gen brief w) + 200)
         (length (targetLocales brief))
         [CallValidate; CallGenerate; CallPersist].
Proof.
  intros Hchecks. apply status_of_checks in Hchecks.
  destruct (validateInput_evolved brief w) as (w1 & Hval & Hn1 & Hr1 & Hd1 & Hc1).
  rewrite Hchecks in Hval.
  set (p := {| projectId := campaignId brief; timestamp := toISOString (now w);
               status := VALIDATED; payload := brief;
               compliance := computeGeoCompliance (targetLocales brief) |}) in *.
  destruct (generateCreatives_output gen p w1 eq_refl)
    as (w2 & Hgen & Hn2 & Hr2 & Hd2 & Hc2).
  assert (launched gen p w1 = briefTasks gen brief w) as Hlaunched
    by (unfold launched, briefTasks, variantPromises; cbn [payload p];
        by rewrite Hr1, Hd1, Nat.add_0_r).
  rewrite Hlaunched in *. exists w2. split.
  - unfold runPipeline. unfold bind at 1. rewrite Hval. cbn [status p].
    unfold bind at 1. rewrite Hgen. cbn [variants compliance p].
    unfold succeededVariants. by rewrite omap_map.
  - unfold evolved. cbn [payload p] in *.
    rewrite Hn2, Hr2, Hd2, Hc2, Hn1, Hr1, Hd1, Hc1, <- app_assoc.
    repeat split; lia.
Qed.

Lemma pipeline_goes_live (gen : Provider) (brief : BriefInput) (w : World) :
  five_checks trimmedLength brief ->
  Forall (fun v => validVariant v = true) (succeededVariants gen brief w) ->
  succeededVariants gen brief w <> [] ->
  exists cfg w',
    runPipeline gen brief w = (Returned cfg, w')
    /\ isLive cfg = true
    /\ consentRequired (middlewareRules cfg)
       = requiresGDPR (computeGeoCompliance (targetLocales brief))
    /\ edgeRegion cfg
       = determineEdgeRegion (map locale (succeededVariants gen brief w)).
Proof.
  intros Hchecks Hvalid Hne.
  destruct (runPipeline_validated gen brief w Hchecks) as (w2 & -> & _).
  destruct (optimizeAll_valid _ w2 Hvalid) as (w3 & Hopt & _).
  unfold bind at 1. rewrite Hopt.
  destruct (executeGeoDeploy_returns
              (map optimizedValue (succeededVariants gen brief w))
              (computeGeoCompliance (targetLocales brief)) w3)
    as (cfg & w' & Hrun & Hrules & Hregion & Hlive & _).
  { by destruct (succeededVariants gen brief w). }
  exists cfg, w'. split; [done|]. split; [done|]. rewrite Hrules, Hregion.
  split; [done|]. f_equal. rewrite !map_fmap, <- list_fmap_compose.
  by apply list_fmap_ext.
Qed.

End Pipeline.

Section PipelineRuns.
Context `{Platform}.

(** X14. A partial failure of generation does not stop the run.  For a
    brief that passes validation and a provider whose returned variants
    all have a locale and a headline, as soon as one generation task
    succeeds the pipeline returns a live deployment: its consent rule is
    the policy validation derived from the target locales, and its region
    is selected from the locales of the succeeded variants only. *)
Theorem pipeline_survives_partial_failure
    (gen : Provider) (brief : BriefInput) (w : World) :
  five_checks trimmedLength brief ->
  Forall (fun v => validVariant v = true) (succeededVariants gen brief w) ->
  (exists t, t ∈ briefTasks gen brief w /\ failed t = false) ->
  exists cfg w',
    runPipeline gen brief w = (Returned cfg, w')
    /\ isLive cfg = true
    /\ consentRequired (middlewareRules cfg)
       = requiresGDPR (computeGeoCompliance (targetLocales brief))
    /\ edgeRegion cfg
       = determineEdgeRegion (map locale (succeededVariants gen brief w)).
Proof.
  intros Hchecks Hvalid (t & Hin & Hok).
  apply pipeline_goes_live; [done | done |].
  unfold failed in Hok. destruct (outcome t) as [v|] eqn:Ho; [|done].
  assert (v ∈ succeededVariants gen brief w) as Hv.
  { apply list_elem_of_omap. exists t. by rewrite Ho. }
  intros Hnil. rewrite Hnil in Hv. by apply elem_of_nil in Hv.
Qed.

(** X15. When a brief passes validation and every generation task fails,
    the run does not end in a deployment: no [optimizeSEO] call is made,
    deployment is entered with no variant and throws its
    invariant-violation error, and neither the deployment provider nor the
    telemetry provisioner is called. *)
Theorem pipeline_throws_when_all_generation_fails
    (gen : Provider) (brief : BriefInput) (w : World) :
  five_checks trimmedLength brief ->
  Forall (fun t => failed t = true) (briefTasks gen brief w) ->
  exists w',
    runPipeline gen brief w = (Threw deployError, w')
    /\ calls w' = calls w ++ [CallValidate; CallGenerate; CallPersist; CallDeploy].
Proof.
  intros Hchecks Hfail.
  destruct (runPipeline_validated gen brief w Hchecks)
    as (w2 & -> & _ & _ & _ & Hc2).
  assert (succeededVariants gen brief w = []) as ->.
  { unfold succeededVariants.
    induction Hfail as [|t ts Ht _ IH]; [done|].
    unfold omap in *. cbn [list_omap]. unfold failed in Ht.
    by destruct (outcome t). }
  eexists. split; [reflexivity|]. cbn [calls]. rewrite Hc2.
  by rewrite <- app_assoc.
Qed.

Lemma stub_succeeds (msg : string) (ls : list Locale) (rs : list N) :
  length rs = length ls ->
  omap (fun t => fulfilled_value (outcome t)) (zip_with (stubAIGeneration msg) ls rs)
  = map (stubVariant msg) ls.
Proof.
  revert rs. induction ls as [|l ls IH]; intros [|r rs] Hlen; try done.
  cbn [zip_with map]. unfold omap in *. cbn [list_omap].
  cbn [stubAIGeneration outcome fulfilled_value].
  change (stubVariant msg l :: list_omap _ _
            (fun t => fulfilled_value (outcome t))
            (zip_with (stubAIGeneration msg) ls rs)
          = stubVariant msg l :: map (stubVariant msg) ls).
  f_equal. apply IH. by injection Hlen.
Qed.

Lemma stub_variants (brief : BriefInput) (w : World) :
  succeededVariants stubAIGeneration brief w
  = map (stubVariant (coreMessage brief)) (targetLocales brief).
Proof.
  unfold succeededVariants, briefTasks. apply stub_succeeds.
  by rewrite length_map, length_seq.
Qed.

Lemma stubVariant_valid (msg : string) (l : Locale) :
  validVariant (stubVariant msg l) = JS.truthy l.
Proof. unfold validVariant. cbn [locale heroTitle stubVariant]. apply andb_true_r. Qed.

Lemma fra1_isEuTargeted (ls : list Locale) :
  determineEdgeRegion ls = "fra1" -> isEuTargeted ls = true.
Proof.
  rewrite determineEdgeRegion_cases.
  destruct (Nat.ltb_spec (nonEuCount ls) (euCount ls)) as [Hlt|_];
    [|destruct (_ <? _)%nat; discriminate].
  intros _. destruct (euCount_positive ls) as (l & Hin & Hl); [lia|].
  apply isEuTargeted_exists. exists l. split; [done|].
  unfold isEuLocale, has in *. apply bool_decide_eq_true.
  apply bool_decide_eq_true in Hl. by apply euPrefixes_euLocales.
Qed.

(** X16. With the repository's own provider, a brief that passes
    validation and has no empty target locale is always deployed: the run
    returns a live configuration whose region is selected from the target
    locales and whose consent rule is the policy of the target locales;
    and when that region is the European one, consent is required. *)
Theorem pipeline_deploys_valid_brief (brief : BriefInput) (w : World) :
  five_checks trimmedLength brief ->
  EmptyString ∉ targetLocales brief ->
  exists cfg w',
    runPipeline stubAIGeneration brief w = (Returned cfg, w')
    /\ isLive cfg = true
    /\ edgeRegion cfg = determineEdgeRegion (targetLocales brief)
    /\ consentRequired (middlewareRules cfg)
       = requiresGDPR (computeGeoCompliance (targetLocales brief))
    /\ (edgeRegion cfg = "fra1" -> consentRequired (middlewareRules cfg) = true).
Proof.
  intros Hchecks Hnonempty.
  assert (map locale (succeededVariants stubAIGeneration brief w)
          = targetLocales brief) as Hlocales.
  { rewrite stub_variants, !map_fmap, <- list_fmap_compose. apply list_fmap_id. }
  destruct (pipeline_goes_live stubAIGeneration brief w Hchecks)
    as (cfg & w' & Hrun & Hlive & Hconsent & Hregion).
  - rewrite stub_variants. apply Forall_forall. intros v Hv.
    apply list_elem_of_In, in_map_iff in Hv as (l & <- & Hl).
    rewrite stubVariant_valid.
    destruct l; [|done]. exfalso. by apply Hnonempty, list_elem_of_In.
  - rewrite stub_variants. destruct Hchecks as (_ & _ & _ & Hlen & _).
    destruct (targetLocales brief); [cbn in Hlen; lia | done].
  - rewrite Hlocales in Hregion. exists cfg, w'.
    split; [done|]. split; [done|]. split; [done|]. split; [done|].
    rewrite Hconsent, Hregion. intros Hfra. unfold computeGeoCompliance.
    cbn [requiresGDPR]. by apply fra1_isEuTargeted.
Qed.

(** X17. Validation does not look inside the target locales.  A brief that
    passes validation although one of its target locales is the empty
    string is generated in full by the repository's provider and then
    fails in the optimization stage: the run throws the SEO agent's
    invariant-violation error for the empty locale, and deployment is not
    entered. *)
Theorem empty_locale_fails_in_optimization (brief : BriefInput) (w : World) :
  five_checks trimmedLength brief ->
  EmptyString ∈ targetLocales brief ->
  exists w',
    runPipeline stubAIGeneration brief w
    = (Threw (JsError "[SeoSemanticAgent] Invariant Violation: Invalid input variant for locale "),
       w')
    /\ calls w'
       = calls w ++ [CallValidate; CallGenerate; CallPersist]
           ++ map CallOptimize (targetLocales brief).
Proof.
  intros Hchecks Hempty.
  destruct (runPipeline_validated stubAIGeneration brief w Hchecks)
    as (w2 & -> & _ & _ & _ & Hc2).
  rewrite stub_variants.
  destruct (optimizeAll_invalid
              (map (stubVariant (coreMessage brief)) (targetLocales brief)) w2)
    as (v & w3 & Hin & Hv & Hrun & _ & _ & _ & Hc3).
  { apply Exists_exists. exists (stubVariant (coreMessage brief) EmptyString).
    split; [|done]. apply list_elem_of_In, in_map. by apply list_elem_of_In. }
  apply list_elem_of_In, in_map_iff in Hin as (l & <- & _).
  rewrite stubVariant_valid in Hv. destruct l; [|done].
  exists w3. unfold bind at 1. rewrite Hrun. split; [done|].
  rewrite Hc3, Hc2, <- app_assoc. f_equal. f_equal.
  rewrite !map_fmap, <- list_fmap_compose. by apply list_fmap_ext.
Qed.

End PipelineRuns.

Ltac checks_hold :=
  unfold five_checks, validUrl, trimmedLength; vm_compute;
  repeat split; try lia; try discriminate.

Lemma pipeline_survives_partial_failure_witness :
  exists cfg w',
    @runPipeline example_platform failing_provider scenario_brief example_world
      = (Returned cfg, w')
    /\ isLive cfg = true
    /\ edgeRegion cfg = "fra1".
Proof.
  assert (@five_checks example_platform trimmedLength scenario_brief) as Hchecks
    by checks_hold.
  assert (Forall (fun v => validVariant v = true)
            (succeededVariants failing_provider scenario_brief example_world))
    as Hvalid by (vm_compute; repeat constructor).
  assert (exists t, t ∈ briefTasks failing_provider scenario_brief example_world
                    /\ failed t = false) as Hsome
    by (eexists; split; [left | reflexivity]).
  destruct (@pipeline_survives_partial_failure example_platform failing_provider
              scenario_brief example_world Hchecks Hvalid Hsome)
    as (cfg & w' & Hrun & Hlive & _ & Hregion).
  exists cfg, w'. split; [exact Hrun|]. split; [exact Hlive | exact Hregion].
Defined.

Lemma pipeline_throws_when_all_generation_fails_witness :
  exists w',
    @runPipeline example_platform
      (fun _ l _ => {| delay := 0;
                       outcome := Rejected (JsError ("Simulated API Timeout for " +:+ l)) |})
      example_brief example_world
    = (Threw deployError, w')
    /\ calls w' = [CallValidate; CallGenerate; CallPersist; CallDeploy].
Proof.
  apply (@pipeline_throws_when_all_generation_fails example_platform
           (fun _ l _ => {| delay := 0;
                            outcome := Rejected (JsError ("Simulated API Timeout for " +:+ l)) |})
           example_brief example_world).
  - checks_hold.
  - vm_compute. repeat constructor.
Defined.

Lemma pipeline_deploys_valid_brief_witness :
  exists cfg w',
    @runPipeline example_platform (@stubAIGeneration example_platform)
      example_brief example_world = (Returned cfg, w')
    /\ isLive cfg = true
    /\ edgeRegion cfg = "fra1"
    /\ consentRequired (middlewareRules cfg) = true.
Proof.
  destruct (@pipeline_deploys_valid_brief example_platform example_brief
              example_world) as (cfg & w' & Hrun & Hlive & Hregion & _ & Hfra).
  - checks_hold.
  - cbn [targetLocales example_brief]. rewrite !not_elem_of_cons.
    repeat split; try discriminate. apply not_elem_of_nil.
  - exists cfg, w'. split; [exact Hrun|]. split; [exact Hlive|].
    split; [exact Hregion | exact (Hfra Hregion)].
Defined.

Lemma empty_locale_fails_in_optimization_witness :
  exists w',
    @runPipeline example_platform (@stubAIGeneration example_platform)
      {| campaignId := "sc3-seo"; brandName := "SEOBot";
         coreMessage := "Semantic SEO 2026 Test";
         targetLocales := ["en-US"; EmptyString];
         assets := assets example_brief |} example_world
    = (Threw (JsError "[SeoSemanticAgent] Invariant Violation: Invalid input variant for locale "),
       w')
    /\ calls w' = [CallValidate; CallGenerate; CallPersist;
                   CallOptimize "en-US"; CallOptimize EmptyString].
Proof.
  apply (@empty_locale_fails_in_optimization example_platform
           {| campaignId := "sc3-seo"; brandName := "SEOBot";
              coreMessage := "Semantic SEO 2026 Test";
              targetLocales := ["en-US"; EmptyString];
              assets := assets example_brief |} example_world).
  - checks_hold.
  - cbn [targetLocales]. right. left.
Defined.

(** ** Deployment identifiers *)

Lemma digitValue_digit36 (d : N) : d < 36 -> digitValue (JS.digit36 d) = d.
Proof.
  intros Hd. unfold digitValue, JS.digit36, JS.code.
  destruct (N.ltb_spec d 10).
  - rewrite N_ascii_embedding by lia.
    destruct (N.ltb_spec (48 + d) 58); lia.
  - rewrite N_ascii_embedding by lia.
    destruct (N.ltb_spec (87 + d) 58); lia.
Qed.

Lemma parse36_toString36_aux (fuel : nat) (n : N) (acc : string) :
  n < 2 ^ N.of_nat fuel ->
  parse36 (JS.toString36_aux fuel n acc) = parse36_from n acc.
Proof.
  revert n acc. induction fuel as [|fuel IH]; intros n acc Hn.
  - cbn in Hn. assert (n = 0) as -> by lia. done.
  - cbn [JS.toString36_aux]. destruct (N.ltb_spec n 36) as [Hsmall|Hbig].
    + unfold parse36. cbn [parse36_from].
      rewrite N.mod_small, digitValue_digit36 by done. done.
    + rewrite IH.
      * cbn [parse36_from].
        rewrite digitValue_digit36 by (apply N.mod_lt; lia).
        f_equal. rewrite N.mul_comm. symmetry. apply N.div_mod. lia.
      * rewrite Nat2N.inj_succ, N.pow_succ_r' in Hn.
        apply N.Div0.div_lt_upper_bound. lia.
Qed.

(** Reading back the base-36 rendering of a number gives the number. *)
Lemma parse36_toString36 (n : N) : parse36 (JS.toString36 n) = n.
Proof.
  unfold JS.toString36. rewrite parse36_toString36_aux; [done|].
  rewrite Nat2N.inj_succ, N2Nat.id.
  destruct n as [|p]; [done|]. apply N.log2_spec. lia.
Qed.

Lemma executeGeoDeploy_descriptor (vs : list SEOOptimizedVariant)
    (policy : GeoCompliance) (w : World) :
  vs <> [] ->
  let region := determineEdgeRegion (map (fun v => locale (content v)) vs) in
  let id := "dpl_" +:+ region +:+ "_" +:+ JS.toString36 (now w + 200) in
  exists w',
    executeGeoDeploy vs policy w
    = (Returned
         {| deploymentId := id;
            edgeRegion := region;
            isLive := true;
            telemetryEndpoint :=
              "https://analytics.microsite-factory.com/v1/events/" +:+ id;
            middlewareRules :=
              {| geoBlocking := false;
                 consentRequired := requiresGDPR policy |} |}, w')
    /\ evolved w w' 250 0 [CallDeploy; CallVercel region; CallTelemetry id].
Proof.
  intros Hne region id. destruct vs as [|v vs]; [done|].
  unfold executeGeoDeploy, stubVercelDeploy, stubTelemetryProvisioning,
    bind, journal, sleep, clock, ret.
  cbn [length Nat.eqb fst snd calls now rand drawn].
  eexists. split; [reflexivity|]. unfold evolved. cbn [now rand drawn calls].
  split; [lia|]. split; [done|]. split; [lia|]. by rewrite <- !app_assoc.
Qed.

(** X18. A deployment gets the identifier "dpl_", the selected region,
    "_" and the clock reading (200 ms after entry) in base 36, and a
    telemetry endpoint that ends in that identifier; the deployment
    provider is called before the telemetry provisioner, 250 ms pass in
    all.  The clock reading can be read back from the identifier, so two
    deployments of the same variants started at different times get
    different identifiers and different telemetry endpoints. *)
Theorem deployment_identifiers (vs : list SEOOptimizedVariant)
    (policy : GeoCompliance) (w1 w2 : World) :
  vs <> [] ->
  exists cfg1 w1' cfg2 w2' token1,
    executeGeoDeploy vs policy w1 = (Returned cfg1, w1')
    /\ executeGeoDeploy vs policy w2 = (Returned cfg2, w2')
    /\ deploymentId cfg1 = "dpl_" +:+ edgeRegion cfg1 +:+ "_" +:+ token1
    /\ parse36 token1 = now w1 + 200
    /\ telemetryEndpoint cfg1
       = "https://analytics.microsite-factory.com/v1/events/" +:+ deploymentId cfg1
    /\ evolved w1 w1' 250 0
         [CallDeploy; CallVercel (edgeRegion cfg1); CallTelemetry (deploymentId cfg1)]
    /\ (now w1 <> now w2 ->
        deploymentId cfg1 <> deploymentId cfg2
        /\ telemetryEndpoint cfg1 <> telemetryEndpoint cfg2).
Proof.
  intros Hne.
  destruct (executeGeoDeploy_descriptor vs policy w1 Hne) as (w1' & Hrun1 & Hw1).
  destruct (executeGeoDeploy_descriptor vs policy w2 Hne) as (w2' & Hrun2 & _).
  eexists _, w1', _, w2', (JS.toString36 (now w1 + 200)).
  split; [exact Hrun1|]. split; [exact Hrun2|].
  cbn [deploymentId edgeRegion telemetryEndpoint].
  split; [done|]. split; [apply parse36_toString36|]. split; [done|].
  split; [exact Hw1|]. intros Hnow.
  assert (JS.toString36 (now w1 + 200) <> JS.toString36 (now w2 + 200)) as Htoken.
  { intros Heq. apply (f_equal parse36) in Heq.
    rewrite !parse36_toString36 in Heq. lia. }
  assert (forall pre a b : string, pre +:+ a = pre +:+ b -> a = b) as Hcancel
    by (intros pre a b; apply (inj (String.append pre))).
  split; intros Heq; apply Htoken.
  - by do 3 apply Hcancel in Heq.
  - by do 4 apply Hcancel in Heq.
Qed.

Lemma deployment_identifiers_witness :
  exists cfg w',
    executeGeoDeploy [optimizedValue {| locale := "fr-FR"; heroTitle := "Bonjeur";
                                        bodyCopy := "Oui"; ctaText := "Allez";
                                        layoutId := "std" |}]
      (computeGeoCompliance ["fr-FR"]) example_world
    = (Returned cfg, w')
    /\ deploymentId cfg = "dpl_fra1_loyw3v7s".
Proof.
  destruct (deployment_identifiers
              [optimizedValue {| locale := "fr-FR"; heroTitle := "Bonjeur";
                                 bodyCopy := "Oui"; ctaText := "Allez";
                                 layoutId := "std" |}]
              (computeGeoCompliance ["fr-FR"]) example_world example_world
              ltac:(discriminate))
    as (cfg & w' & _ & _ & _ & Hrun & _).
  exists cfg, w'. split; [exact Hrun|].
  vm_compute in Hrun. injection Hrun as <- _. reflexivity.
Defined.

(** ** White space in the text fields *)

Lemma append_cons (c : ascii) (s t : string) :
  String c s +:+ t = String c (s +:+ t).
Proof. done. Qed.

Lemma trimStart_blank (s : string) : allWhiteSpace s -> JS.trimStart s = EmptyString.
Proof.
  unfold allWhiteSpace. induction s as [|c s IH]; [done|]. cbn.
  intros Hs. apply Forall_cons in Hs as [-> Hs]. by apply IH.
Qed.

Lemma trimEnd_blank (s : string) : allWhiteSpace s -> JS.trimEnd s = EmptyString.
Proof.
  unfold allWhiteSpace. induction s as [|c s IH]; [done|]. cbn.
  intros Hs. apply Forall_cons in Hs as [-> Hs]. by rewrite IH.
Qed.

Lemma trimStart_pad (l s : string) :
  allWhiteSpace l -> JS.trimStart (l +:+ s) = JS.trimStart s.
Proof.
  unfold allWhiteSpace. induction l as [|c l IH]; [done|]. cbn [chars].
  intros Hl. apply Forall_cons in Hl as [Hc Hl].
  rewrite append_cons. cbn [JS.trimStart]. rewrite Hc. by apply IH.
Qed.

Lemma trimEnd_pad (s r : string) :
  allWhiteSpace r -> JS.trimEnd (s +:+ r) = JS.trimEnd s.
Proof.
  intros Hr. induction s as [|c s IH]; [by apply trimEnd_blank|].
  rewrite append_cons. cbn [JS.trimEnd]. by rewrite IH.
Qed.

Lemma trim_pad_r (s r : string) :
  allWhiteSpace r -> JS.trim (s +:+ r) = JS.trim s.
Proof.
  intros Hr. unfold JS.trim. induction s as [|c s IH].
  - change (EmptyString +:+ r) with r. by rewrite trimStart_blank.
  - rewrite append_cons. cbn [JS.trimStart].
    destruct (JS.isWhiteSpace c); [exact IH|].
    rewrite <- append_cons. by apply trimEnd_pad.
Qed.

Lemma trim_pad (l r s : string) :
  allWhiteSpace l -> allWhiteSpace r -> JS.trim (pad l r s) = JS.trim s.
Proof.
  intros Hl Hr. unfold pad.
  transitivity (JS.trim (s +:+ r)); [|by apply trim_pad_r].
  unfold JS.trim. by rewrite trimStart_pad.
Qed.

(** X19. White space around the campaign identifier, the brand name and
    the core message changes neither the validation status nor the
    compliance policy of a brief; the project identifier, though, is the
    campaign identifier as given, white space included. *)
Theorem validation_ignores_surrounding_white_space `{Platform}
    (l r : string) (input : BriefInput) (w : World) :
  allWhiteSpace l -> allWhiteSpace r ->
  exists p w1 p' w1',
    validateInput input w = (Returned p, w1)
    /\ validateInput (paddedBrief l r input) w = (Returned p', w1')
    /\ status p' = status p
    /\ compliance p' = compliance p
    /\ projectId p' = l +:+ campaignId input +:+ r.
Proof.
  intros Hl Hr.
  destruct (validateInput_evolved input w) as (w1 & Hrun & _).
  destruct (validateInput_evolved (paddedBrief l r input) w) as (w1' & Hrun' & _).
  eexists _, w1, _, w1'. split; [exact Hrun|]. split; [exact Hrun'|].
  cbn [status compliance projectId paddedBrief campaignId targetLocales].
  split; [|done].
  assert (five_checks trimmedLength (paddedBrief l r input)
          <-> five_checks trimmedLength input) as Hsame.
  { unfold five_checks, trimmedLength.
    cbn [paddedBrief campaignId brandName coreMessage targetLocales assets].
    by rewrite !trim_pad. }
  rewrite <- !status_of_checks in Hsame.
  destruct (0 <? length (validationErrors (paddedBrief l r input)))%nat,
    (0 <? length (validationErrors input))%nat; try done.
  - by destruct Hsame as [_ Hsame]; specialize (Hsame eq_refl).
  - by destruct Hsame as [Hsame _]; specialize (Hsame eq_refl).
Qed.

Lemma validation_ignores_surrounding_white_space_witness :
  exists p w1 p' w1',
    @validateInput example_platform example_brief example_world = (Returned p, w1)
    /\ @validateInput example_platform (paddedBrief "  " (String "009" " ") example_brief)
         example_world = (Returned p', w1')
    /\ status p' = status p
    /\ projectId p' = ("  integration-test-2026" +:+ String "009" " ").
Proof.
  destruct (@validation_ignores_surrounding_white_space example_platform
              "  " (String "009" " ") example_brief example_world)
    as (p & w1 & p' & w1' & Hrun & Hrun' & Hst & _ & Hid).
  - repeat constructor.
  - repeat constructor.
  - exists p, w1, p', w1'. split; [exact Hrun|]. split; [exact Hrun'|].
    split; [exact Hst | exact Hid].
Defined.

(** ** Pages of the repository's provider *)

Lemma primaryKeyword_length (l : Locale) :
  l ∉ objectPrototypeMembers ->
  (11 <= String.length (primaryKeyword (stubKeywordDatabase l)))%nat.
Proof.
  intros Hproto. unfold stubKeywordDatabase.
  destruct (decide (l ∈ supportedLocales)) as [Hin|Hout].
  - unfold supportedLocales in Hin. rewrite !elem_of_cons, elem_of_nil in Hin.
    repeat (destruct Hin as [->|Hin]; [vm_compute; lia|]). done.
  - assert ((list_to_map keywordMap : gmap string (list string)) !! l = None)
      as ->.
    { apply not_elem_of_list_to_map_1. intros Hin. apply Hout.
      unfold supportedLocales. exact Hin. }
    rewrite bool_decide_eq_false_2 by done. cbn. lia.
Qed.

(** X20. The pages made of the repository's own variants always have their
    title cut.  For a core message of at least 20 characters and a locale
    of 3 to 40 characters that names no inherited member (and whose
    upper-case form has the same length), the raw title is longer than 60
    characters, so the title is its first 57 characters followed by "..."
    and the keyword is never shown in full; the description, 120
    characters plus the length of the locale, is never cut. *)
Theorem stub_titles_are_cut `{Platform} (msg : string) (l : Locale) (w : World) :
  (20 <= String.length msg)%nat ->
  (3 <= String.length l <= 40)%nat ->
  l ∉ objectPrototypeMembers ->
  String.length (toUpperCase l) = String.length l ->
  exists o w',
    optimizeSEO (stubVariant msg l) w = (Returned o, w')
    /\ (60 < String.length (rawTitle (stubVariant msg l)))%nat
    /\ title (seo o)
       = String.substring 0 57 (rawTitle (stubVariant msg l)) +:+ "..."
    /\ String.length (title (seo o)) = 60%nat
    /\ description (seo o)
       = JS.substring (bodyCopy (stubVariant msg l)) 0 100 +:+ "... "
           +:+ ctaText (stubVariant msg l)
    /\ String.length (description (seo o)) = (120 + String.length l)%nat.
Proof.
  intros Hmsg Hl Hproto Hup.
  destruct (optimizeSEO_valid (stubVariant msg l) w) as (o & w' & Hrun & _ & Hseo).
  { cbn [locale stubVariant]. destruct l; [cbn in Hl; lia | done]. }
  { done. }
  exists o, w'. split; [done|]. rewrite Hseo. unfold generateMetadata.
  cbn [title description]. fold (rawTitle (stubVariant msg l)).
  pose proof (primaryKeyword_length l Hproto) as Hkw.
  assert (60 < String.length (rawTitle (stubVariant msg l)))%nat as Hraw.
  { unfold rawTitle. cbn [heroTitle locale stubVariant].
    rewrite !length_append, substring_from_0, length_substring_0, Hup.
    cbn [String.length]. lia. }
  split; [done|].
  destruct (truncate_long _ MAX_TITLE_LENGTH ltac:(unfold MAX_TITLE_LENGTH; lia) Hraw)
    as [Htitle Hlen].
  split; [done|]. split; [done|].
  assert (String.length (JS.substring (bodyCopy (stubVariant msg l)) 0 100
                           +:+ "... " +:+ ctaText (stubVariant msg l))
          = (120 + String.length l)%nat) as Hdesc.
  { cbn [bodyCopy ctaText stubVariant].
    rewrite !length_append, substring_from_0, length_substring_0.
    rewrite !length_append, Hup. cbn [String.length]. lia. }
  rewrite truncate_short by (rewrite Hdesc; unfold MAX_DESC_LENGTH; lia).
  by split.
Qed.

Lemma stub_titles_are_cut_witness :
  exists o w',
    optimizeSEO (@stubVariant example_platform (coreMessage example_brief) "it-IT")
      example_world = (Returned o, w')
    /\ title (seo o)
       = "[IT-IT] Future of Living: Exclusive villas in ... | Migli...".
Proof.
  destruct (@stub_titles_are_cut example_platform (coreMessage example_brief)
              "it-IT" example_world)
    as (o & w' & Hrun & _ & Htitle & _).
  - cbn. lia.
  - cbn. lia.
  - unfold objectPrototypeMembers. rewrite !not_elem_of_cons.
    repeat split; try discriminate. apply not_elem_of_nil.
  - reflexivity.
  - exists o, w'. split; [exact Hrun | exact Htitle].
Defined.
